(** * Axis-domain, tick and percentage arithmetic of the chart components

    A shallow embedding of the numeric helpers of
    [registry/new-york/line-chart/line-chart.tsx]
    ([getNiceStepSize], [calculateYAxisTicks], [calculateNiceYDomain], the
    [yDomain] and [yAxisTicks] memos of [LineChartComponent]) and of the
    [normalizedData] memo of [AreaChartComponent].

    Numbers.  A JavaScript [number] is modelled by [num]: an exact rational
    ([Fin q]) or one of the three special values [PInf], [NInf], [NaN].
    Arithmetic on finite values is exact (no IEEE-754 rounding, no overflow,
    no signed zero); the special values follow the ECMAScript rules, because
    the code relies on them ([Infinity] sentinels, comparisons with [NaN]
    ending a loop, [undefined] turning into [NaN]).  Equality of finite
    numbers is [Qeq]. *)

From Stdlib Require Import QArith Qround Qpower Lqa Lia ZArith List Bool.
From stdpp Require Import gmap strings list fin_maps sorting.

Local Open Scope Q_scope.

(** ** JavaScript numbers *)

Inductive num : Type :=
| Fin (q : Q)
| PInf
| NInf
| NaN.

Declare Scope num_scope.
Delimit Scope num_scope with num.
Bind Scope num_scope with num.

Definition nZ (z : Z) : num := Fin (inject_Z z).
Definition nNat (n : nat) : num := nZ (Z.of_nat n).

Definition num_neg (x : num) : num :=
  match x with
  | Fin q => Fin (- q)
  | PInf => NInf
  | NInf => PInf
  | NaN => NaN
  end.

Definition num_add (x y : num) : num :=
  match x, y with
  | NaN, _ | _, NaN => NaN
  | Fin a, Fin b => Fin (a + b)
  | PInf, NInf | NInf, PInf => NaN
  | PInf, _ | _, PInf => PInf
  | NInf, _ | _, NInf => NInf
  end.

Definition num_sub (x y : num) : num := num_add x (num_neg y).

(** The sign of an infinite product or quotient: [Gt] keeps the sign of the
    infinity, [Lt] flips it, [Eq] (a zero factor) gives [NaN]. *)
Definition inf_signed (pos : bool) (c : comparison) : num :=
  match c with
  | Eq => NaN
  | Gt => if pos then PInf else NInf
  | Lt => if pos then NInf else PInf
  end.

Definition num_mul (x y : num) : num :=
  match x, y with
  | NaN, _ | _, NaN => NaN
  | Fin a, Fin b => Fin (a * b)
  | Fin a, PInf | PInf, Fin a => inf_signed true (a ?= 0)
  | Fin a, NInf | NInf, Fin a => inf_signed false (a ?= 0)
  | PInf, PInf | NInf, NInf => PInf
  | PInf, NInf | NInf, PInf => NInf
  end.

(** Division.  A finite zero divisor is the positive zero: [a / 0] is
    [Infinity], [-Infinity] or [NaN] by the sign of [a]. *)
Definition num_div (x y : num) : num :=
  match x, y with
  | NaN, _ | _, NaN => NaN
  | Fin a, Fin b =>
      if Qeq_bool b 0 then inf_signed true (a ?= 0) else Fin (a / b)
  | Fin _, PInf | Fin _, NInf => Fin 0
  | PInf, Fin b => if Qle_bool 0 b then PInf else NInf
  | NInf, Fin b => if Qle_bool 0 b then NInf else PInf
  | _, _ => NaN
  end.

(** Comparisons are boolean, and false as soon as one side is [NaN]. *)
Definition num_le (x y : num) : bool :=
  match x, y with
  | NaN, _ | _, NaN => false
  | Fin a, Fin b => Qle_bool a b
  | NInf, _ | _, PInf => true
  | _, _ => false
  end.

Definition num_lt (x y : num) : bool :=
  match x, y with
  | NaN, _ | _, NaN => false
  | Fin a, Fin b => negb (Qle_bool b a)
  | PInf, _ | _, NInf => false
  | _, _ => true
  end.

Definition num_ge (x y : num) : bool := num_le y x.
Definition num_gt (x y : num) : bool := num_lt y x.

(** Strict equality [===] on numbers. *)
Definition num_seq (x y : num) : bool :=
  match x, y with
  | Fin a, Fin b => Qeq_bool a b
  | PInf, PInf | NInf, NInf => true
  | _, _ => false
  end.

Infix "+" := num_add : num_scope.
Infix "-" := num_sub : num_scope.
Infix "*" := num_mul : num_scope.
Infix "/" := num_div : num_scope.
Infix "<=?" := num_le : num_scope.
Infix "<?" := num_lt : num_scope.
Infix ">=?" := num_ge (at level 70) : num_scope.
Infix ">?" := num_gt (at level 70) : num_scope.
Infix "===" := num_seq (at level 70) : num_scope.

(** [Math.min], [Math.max] (two arguments), [Math.floor], [Math.ceil]. *)
Definition Math_min (x y : num) : num :=
  match x, y with
  | NaN, _ | _, NaN => NaN
  | _, _ => if num_le x y then x else y
  end.

Definition Math_max (x y : num) : num :=
  match x, y with
  | NaN, _ | _, NaN => NaN
  | _, _ => if num_le x y then y else x
  end.

Definition Math_floor (x : num) : num :=
  match x with Fin q => nZ (Qfloor q) | _ => x end.

Definition Math_ceil (x : num) : num :=
  match x with Fin q => nZ (Qceiling q) | _ => x end.

(** The logarithm is not rational, so [Math.floor(Math.log10(x))] is one
    operation of the model: for a finite [x > 0] the integer [k] with
    [10^k <= x < 10^(k+1)], found by walking up from a power of ten below
    [x]. *)
Fixpoint log10_search (fuel : nat) (q : Q) (k : Z) : Z :=
  match fuel with
  | O => k
  | S fuel' =>
      if Qle_bool (10 ^ (k + 1)) q then log10_search fuel' q (k + 1)%Z else k
  end.

Definition Qfloor_log10 (q : Q) : Z :=
  let a := Z.succ (Z.log2 (Zpos (Qden q))) in
  let b := Z.succ (Z.log2 (Qnum q)) in
  log10_search (Z.to_nat (a + b)) q (- a).

Definition Math_floor_log10 (x : num) : num :=
  match x with
  | Fin q =>
      match q ?= 0 with
      | Gt => nZ (Qfloor_log10 q)
      | Eq => NInf
      | Lt => NaN
      end
  | PInf => PInf
  | NInf | NaN => NaN
  end.

(** [Math.pow(10, e)]; the exponent is always the result of
    [Math_floor_log10], hence an integer or a special value. *)
Definition Math_pow10 (e : num) : num :=
  match e with
  | Fin k => Fin (10 ^ Qfloor k)
  | PInf => PInf
  | NInf => Fin 0
  | NaN => NaN
  end.

(** Truthiness of a number, as tested by [||]: [0] and [NaN] are falsy. *)
Definition truthy (x : num) : bool :=
  match x with
  | Fin q => negb (Qeq_bool q 0)
  | PInf | NInf => true
  | NaN => false
  end.

(** [x || d] where [x] is a number. *)
Definition num_or (x d : num) : num := if truthy x then x else d.

(** [x || d] where [x] is a possibly-undefined number ([undefined] is
    falsy). *)
Definition opt_or (x : option num) (d : num) : num :=
  match x with
  | Some v => num_or v d
  | None => d
  end.

(** ** Chart data *)

(** A data row, [Record<string, string | number>]. *)
Inductive value : Type :=
| VNum (n : num)
| VStr (s : string).

Abbreviation item := (gmap string value).

Local Open Scope num_scope.

(** ** line-chart.tsx *)

Module LineChart.

Definition getNiceStepSize (range targetSteps : num) : num :=
  let rawStep := range / targetSteps in
  let magnitude := Math_pow10 (Math_floor_log10 rawStep) in
  let normalizedStep := rawStep / magnitude in
  let niceStep :=
    if normalizedStep <=? nZ 1 then nZ 1
    else if normalizedStep <=? nZ 2 then nZ 2
    else if normalizedStep <=? nZ 5 then nZ 5
    else nZ 10 in
  niceStep * magnitude.

(** The [while] loop of [calculateYAxisTicks], with state
    [(currentTick, ticks)].  [ticks.push] appends at the end.  The loop is
    run on fuel: [None] means the fuel ran out before the condition turned
    false. *)
Fixpoint tickLoop (fuel : nat) (min max step tickCount : num)
    (currentTick : num) (ticks : list num) : option (list num) :=
  if (currentTick <=? max) && (nNat (length ticks) <? tickCount * nZ 2) then
    match fuel with
    | O => None
    | S fuel' =>
        let ticks' :=
          if currentTick >=? min then ticks ++ [currentTick] else ticks in
        tickLoop fuel' min max step tickCount (currentTick + step) ticks'
    end
  else Some ticks.

(** [ticks[ticks.length - 1]]: [undefined] on an empty array, which the
    subtraction that follows turns into [NaN]. *)
Definition lastTickOf (ticks : list num) : num :=
  match last ticks with
  | Some t => t
  | None => NaN
  end.

(** The "auto-add extra tick" step at the end of [calculateYAxisTicks]. *)
Definition extraTickCond (dataMax lastTick step : num) : bool :=
  (dataMax - lastTick >? nZ 0) && (dataMax - lastTick <? step * Fin (1 # 10)).

Definition addExtraTick (ticks : list num) (dataMax step : num) : list num :=
  let lastTick := lastTickOf ticks in
  if extraTickCond dataMax lastTick step then ticks ++ [lastTick + step]
  else ticks.

(** [calculateYAxisTicks], abstracted over the step selector it calls, so
    that "the selector is not called" can be stated as independence of the
    result from it. *)
Definition calculateYAxisTicksWith (stepSize : num -> num -> num)
    (fuel : nat) (domain : num * num) (tickCount dataMax : num)
    : option (list num) :=
  let '(min, max) := domain in
  if tickCount <=? nZ 1 then Some [min]
  else
    let step := stepSize (max - min) (tickCount - nZ 1) in
    let niceMin := Math_floor (min / step) * step in
    match tickLoop fuel min max step tickCount niceMin [] with
    | None => None
    | Some ticks => Some (addExtraTick ticks dataMax step)
    end.

Definition calculateYAxisTicks :=
  calculateYAxisTicksWith getNiceStepSize.

(** [typeof item[key] === 'number' ? item[key] : 0] *)
Definition numberOrZero (it : item) (key : string) : num :=
  match it !! key with
  | Some (VNum n) => n
  | _ => nZ 0
  end.

(** The two nested [forEach] of [calculateNiceYDomain], threading
    [(min, max)]. *)
Definition scanRange (data : list item) (dataKeys : list string) : num * num :=
  foldl (fun acc it =>
    foldl (fun '(min, max) key =>
      let v := numberOrZero it key in
      (Math_min min v, Math_max max v)) acc dataKeys)
    (PInf, NInf) data.

Definition getRoundingFactor (v : num) : num :=
  if v <=? nZ 100 then nZ 10
  else if v <=? nZ 1000 then nZ 100
  else if v <=? nZ 10000 then nZ 500
  else if v <=? nZ 50000 then nZ 1000
  else nZ 5000.

(** The padding step of [calculateNiceYDomain] ([range], [paddedMin],
    [paddedMax]). *)
Definition padDomain (min max padding : num) : num * num :=
  let range := max - min in
  let paddedMin := Math_max (nZ 0) (min - range * padding) in
  let paddedMax := max + range * padding in
  (paddedMin, paddedMax).

(** The rounding step of [calculateNiceYDomain] ([niceMin], [niceMax]). *)
Definition roundDomain (padded : num * num) : num * num :=
  let '(paddedMin, paddedMax) := padded in
  let niceMin :=
    Math_floor (paddedMin / getRoundingFactor paddedMin)
    * getRoundingFactor paddedMin in
  let niceMax :=
    Math_ceil (paddedMax / getRoundingFactor paddedMax)
    * getRoundingFactor paddedMax in
  (niceMin, niceMax).

(** The test [min === Infinity || max === -Infinity]. *)
Definition noValueScanned (mm : num * num) : bool :=
  (fst mm === PInf) || (snd mm === NInf).

(** [calculateNiceYDomain(data, dataKeys, padding = 0.1)]; [None] is an
    omitted third argument. *)
Definition calculateNiceYDomain (data : list item) (dataKeys : list string)
    (padding : option num) : num * num :=
  let padding := default (Fin (1 # 10)) padding in
  let mm := scanRange data dataKeys in
  if noValueScanned mm then (nZ 0, nZ 100)
  else roundDomain (padDomain (fst mm) (snd mm) padding).

(** The parts of [LineChartComponent]'s props that the two memos read. *)
Inductive DomainSetting : Type :=
| DomainAuto
| DomainFixed (d : num * num).

Record YAxisConfig : Type := {
  domain : option DomainSetting;
  padding : option num;
  tickCount : option num
}.

Record LineSpec : Type := { dataKey : string }.

(** [yAxisConfig?.padding || 0.15] and [yAxisConfig?.tickCount || 6] *)
Definition resolvePadding (yAxisConfig : option YAxisConfig) : num :=
  opt_or (yAxisConfig ≫= padding) (Fin (15 # 100)).

Definition resolveTickCount (yAxisConfig : option YAxisConfig) : num :=
  opt_or (yAxisConfig ≫= tickCount) (nZ 6).

Definition yDomain (data : list item) (chartLines : list LineSpec)
    (yAxisConfig : option YAxisConfig) : num * num :=
  match yAxisConfig ≫= domain with
  | Some (DomainFixed d) => d
  | _ =>
      let dataKeys := map dataKey chartLines in
      let padding := resolvePadding yAxisConfig in
      calculateNiceYDomain data dataKeys (Some padding)
  end.

(** [data.flatMap(item => dataKeys.map(key => typeof item[key] === 'number'
    ? item[key] : 0))], the values read row by row, key by key. *)
Definition scannedValues (data : list item) (dataKeys : list string)
    : list num :=
  flat_map (fun it => map (numberOrZero it) dataKeys) data.

(** [Math.max(...xs)]; [-Infinity] for no argument. *)
Definition Math_max_list (xs : list num) : num := foldl Math_max NInf xs.

Definition yAxisTicks (fuel : nat) (data : list item)
    (chartLines : list LineSpec) (yAxisConfig : option YAxisConfig)
    : option (list num) :=
  let tickCount := resolveTickCount yAxisConfig in
  let dataKeys := map dataKey chartLines in
  let dataMax := Math_max_list (scannedValues data dataKeys) in
  calculateYAxisTicks fuel (yDomain data chartLines yAxisConfig)
    tickCount dataMax.

(** [const chartLines = lines || Object.keys(chartConfig).map(key => ({
    dataKey: key, ... }))]: the lines given by the caller, or one line per key
    of [chartConfig] ([chartConfigKeys] is [Object.keys(chartConfig)]).  An
    array is truthy even when it is empty, so an empty [lines] is kept. *)
Definition chartLines (lines : option (list LineSpec))
    (chartConfigKeys : list string) : list LineSpec :=
  match lines with
  | Some given => given
  | None => map (fun key => {| dataKey := key |}) chartConfigKeys
  end.

End LineChart.

(** ** The area chart: [normalizedData] *)

Module AreaChart.

Inductive AreaChartVariant : Type :=
| Default
| Linear
| Step
| Stacked
| StackedExpanded
| Gradient
| Legend
| Interactive.

(** [AreaConfig]; only [dataKey] is read by the transform. *)
Record AreaConfig : Type := { dataKey : string }.

Section Normalize.

(** ECMAScript's [StringToNumber], the conversion [Number(s)] applies to a
    string; the transform is verified for any such conversion. *)
Variable StringToNumber : string -> num.

(** [Number(item[key])]: [undefined] converts to [NaN]. *)
Definition Number (v : option value) : num :=
  match v with
  | Some (VNum n) => n
  | Some (VStr s) => StringToNumber s
  | None => NaN
  end.

(** [Number(item[key]) || 0] *)
Definition numericValue (it : item) (key : string) : num :=
  num_or (Number (it !! key)) (nZ 0).

Definition rowTotal (dataKeys : list string) (it : item) : num :=
  foldl (fun sum key => sum + numericValue it key) (nZ 0) dataKeys.

(** The callback of [data.map]. *)
Definition normalizeItem (dataKeys : list string) (it : item) : item :=
  let newItem := it in
  let total := rowTotal dataKeys it in
  if total >? nZ 0 then
    foldl (fun acc key =>
             <[key := VNum (numericValue it key / total * nZ 100)]> acc)
          newItem dataKeys
  else newItem.

Definition normalizedData (variant : AreaChartVariant) (data : list item)
    (chartAreas : list AreaConfig) : list item :=
  match variant with
  | StackedExpanded => map (normalizeItem (map dataKey chartAreas)) data
  | _ => data
  end.

End Normalize.

(** A conversion for strings of decimal digits (and the empty string, which
    converts to [0]); every other string is rejected with [NaN].  Used to
    run the transform on concrete rows. *)
Definition digitValue (c : Ascii.ascii) : option Z :=
  let n := Z.of_nat (Ascii.nat_of_ascii c) in
  if ((48 <=? n) && (n <=? 57))%Z then Some (n - 48)%Z else None.

Fixpoint digitsValue (acc : Z) (s : string) : option Z :=
  match s with
  | EmptyString => Some acc
  | String c s' =>
      match digitValue c with
      | Some d => digitsValue (acc * 10 + d)%Z s'
      | None => None
      end
  end.

Definition digitsToNumber (s : string) : num :=
  match digitsValue 0 s with
  | Some z => nZ z
  | None => NaN
  end.

End AreaChart.

(** ** Vocabulary of the statements *)

(** Numeric equality: [Qeq] on finite numbers, identity on special values. *)
Definition num_eq (x y : num) : Prop :=
  match x, y with
  | Fin a, Fin b => (a == b)%Q
  | PInf, PInf | NInf, NInf | NaN, NaN => True
  | _, _ => False
  end.

#[export] Instance num_equiv : Equiv num := num_eq.

Definition value_eq (v w : value) : Prop :=
  match v, w with
  | VNum a, VNum b => a ≡ b
  | VStr s, VStr t => s = t
  | _, _ => False
  end.

#[export] Instance value_equiv : Equiv value := value_eq.

Definition finite (x : num) : Prop :=
  match x with Fin _ => True | _ => False end.

(** A strictly ascending sequence of numbers. *)
Definition ascending (l : list num) : Prop :=
  StronglySorted (fun x y => (x <? y) = true) l.

(** The rational value of a finite number (0 otherwise), and sums of
    rationals over a list of keys. *)
Definition toQ (x : num) : Q :=
  match x with Fin q => q | _ => 0%Q end.

Fixpoint Qsum (g : string -> Q) (keys : list string) : Q :=
  match keys with
  | [] => 0%Q
  | k :: ks => (g k + Qsum g ks)%Q
  end.

(** One step of the range scan, on the pair [(min, max)]. *)
Definition scanStep (mm : num * num) (v : num) : num * num :=
  (Math_min (fst mm) v, Math_max (snd mm) v).

(** A tick collected by the walk before the cursor reaches [c]: finite, at
    least [lo], below [c]. *)
Definition collected (lo c : Q) (x : num) : Prop :=
  exists q, x = Fin q /\ (lo <= q < c)%Q.

(** The "nice" numbers of the step selector: 1, 2, 5 or 10 times a power
    of ten. *)
Definition niceFactor (c : Z) : Prop :=
  (c = 1 \/ c = 2 \/ c = 5 \/ c = 10)%Z.

Definition nice (y : Q) : Prop :=
  exists c k : Z, niceFactor c /\ (y == inject_Z c * 10 ^ k)%Q.

(** The arithmetic progression the walk collects: [k] ticks from [c] by
    steps of [s], each computed from the previous one by one addition. *)
Fixpoint stepsFrom (c s : Q) (k : nat) : list num :=
  match k with
  | O => []
  | S k' => Fin c :: stepsFrom (c + s) s k'
  end.

(** Consecutive elements differ by exactly [s]. *)
Definition evenlySpaced (s : num) (l : list num) : Prop :=
  forall (i : nat) (a b : num),
    l !! i = Some a -> l !! S i = Some b -> b = (a + s)%num.

(** The magnitude tiers of [getRoundingFactor]: the factor [f] chosen for
    the value [q]. *)
Definition roundingTier (f : Z) (q : Q) : Prop :=
  (f = 10%Z /\ (q <= 100)%Q) \/
  (f = 100%Z /\ (100 < q <= 1000)%Q) \/
  (f = 500%Z /\ (1000 < q <= 10000)%Q) \/
  (f = 1000%Z /\ (10000 < q <= 50000)%Q) \/
  (f = 5000%Z /\ (50000 < q)%Q).

(** The steps with which the floored minimum of the tick walk is [NaN]. *)
Definition degenerateStep (s : num) : Prop :=
  s = NaN \/ s = PInf \/ exists q, s = Fin q /\ (q == 0)%Q.

(** Membership of [[lo, +infinity)]. *)
Definition at_least (lo : num) (x : num) : Prop :=
  (lo <=? x) = true /\ (x <? PInf) = true.

Import LineChart.

(** ** Numbers: reflection of the comparisons *)

Section NumFacts.

Implicit Types (a b c q : Q) (x y z : num).

Lemma num_le_Fin a b : (Fin a <=? Fin b) = true <-> (a <= b)%Q.
Proof. apply Qle_bool_iff. Qed.

Lemma num_lt_Fin a b : (Fin a <? Fin b) = true <-> (a < b)%Q.
Proof.
  simpl. rewrite negb_true_iff, <- not_true_iff_false, Qle_bool_iff.
  split; [apply Qnot_le_lt | apply Qlt_not_le].
Qed.

Lemma num_le_Fin_false a b : (Fin a <=? Fin b) = false <-> (b < a)%Q.
Proof.
  simpl. rewrite <- not_true_iff_false, Qle_bool_iff.
  split; [apply Qnot_le_lt | apply Qlt_not_le].
Qed.

Lemma Qeq_bool_false a b : Qeq_bool a b = false <-> ~ (a == b)%Q.
Proof. rewrite <- not_true_iff_false, Qeq_bool_iff. tauto. Qed.

#[export] Instance num_equiv_equivalence : Equivalence (≡@{num}).
Proof.
  split.
  - intros []; simpl; unfold equiv, num_equiv; simpl; auto with qarith.
  - intros [] []; unfold equiv, num_equiv; simpl; auto with qarith.
  - intros [] [] []; unfold equiv, num_equiv; simpl; try tauto.
    apply Qeq_trans.
Qed.

Lemma Fin_equiv a b : Fin a ≡ Fin b <-> (a == b)%Q.
Proof. reflexivity. Qed.

End NumFacts.

(** ** The integer logarithm *)

Section Log10.

Local Open Scope Q_scope.

Lemma pow10_pos (k : Z) : 0 < 10 ^ k.
Proof. apply Qpower_0_lt. reflexivity. Qed.

Lemma pow10_succ (k : Z) : 10 ^ (k + 1) == 10 ^ k * 10.
Proof. rewrite Qpower_plus by discriminate. reflexivity. Qed.

Lemma log10_search_spec (q : Q) (fuel : nat) : forall k : Z,
  10 ^ k <= q -> q < 10 ^ (k + Z.of_nat fuel) ->
  10 ^ log10_search fuel q k <= q < 10 ^ (log10_search fuel q k + 1).
Proof.
  induction fuel as [|fuel IH]; intros k Hlo Hhi.
  - exfalso. rewrite Z.add_0_r in Hhi. exact (Qlt_not_le _ _ Hhi Hlo).
  - simpl. destruct (Qle_bool (10 ^ (k + 1)) q) eqn:E.
    + apply IH.
      * by apply Qle_bool_iff.
      * replace (k + 1 + Z.of_nat fuel)%Z with (k + Z.of_nat (S fuel))%Z by lia.
        exact Hhi.
    + split; [exact Hlo|].
      apply Qnot_le_lt. intros H. apply Qle_bool_iff in H. congruence.
Qed.

Lemma Zpow10_gt_pow2 (n b : Z) : (0 <= b)%Z -> (n < 2 ^ b)%Z -> (n < 10 ^ b)%Z.
Proof.
  intros Hb Hn. eapply Z.lt_le_trans; [exact Hn|].
  apply Z.pow_le_mono_l. lia.
Qed.

Lemma Zlt_pow10_log2 (n : Z) : (n < 10 ^ Z.succ (Z.log2 n))%Z.
Proof.
  pose proof (Z.log2_nonneg n) as Hnn.
  apply Zpow10_gt_pow2; [lia|].
  destruct (Z_lt_le_dec 0 n) as [Hpos|Hnp].
  - apply Z.log2_spec. exact Hpos.
  - eapply Z.le_lt_trans; [exact Hnp|]. apply Z.pow_pos_nonneg; lia.
Qed.

Lemma inject_pow10 (b : Z) : (0 <= b)%Z -> inject_Z (10 ^ b) == 10 ^ b.
Proof. intros Hb. by rewrite Zpower_Qpower. Qed.

(** [Qfloor_log10 q] is the integer part of the decimal logarithm. *)
Lemma Qfloor_log10_spec (q : Q) :
  0 < q -> 10 ^ Qfloor_log10 q <= q < 10 ^ (Qfloor_log10 q + 1).
Proof.
  intros Hq. unfold Qfloor_log10.
  set (a := Z.succ (Z.log2 (Z.pos (Qden q)))).
  set (b := Z.succ (Z.log2 (Qnum q))).
  assert (Ha : (0 <= a)%Z) by (pose proof (Z.log2_nonneg (Z.pos (Qden q))); lia).
  assert (Hb : (0 <= b)%Z) by (pose proof (Z.log2_nonneg (Qnum q)); lia).
  assert (Hn : (0 < Qnum q)%Z).
  { destruct q as [n d]. unfold Qlt in Hq. simpl in *. lia. }
  assert (Hda : (Z.pos (Qden q) < 10 ^ a)%Z) by apply Zlt_pow10_log2.
  assert (Hnb : (Qnum q < 10 ^ b)%Z) by apply Zlt_pow10_log2.
  apply log10_search_spec.
  - rewrite Qpower_opp, <- inject_pow10 by exact Ha.
    apply Qle_shift_inv_r.
    + change 0 with (inject_Z 0). rewrite <- Zlt_Qlt. lia.
    + destruct q as [n d]. unfold Qle, Qmult, inject_Z. simpl in *. nia.
  - rewrite Z2Nat.id by lia.
    replace (- a + (a + b))%Z with b by lia.
    rewrite <- inject_pow10 by exact Hb.
    destruct q as [n d]. unfold Qlt, inject_Z. simpl in *. nia.
Qed.

End Log10.

(** ** The step selector *)

Section StepSelector.

Local Open Scope Q_scope.

Lemma num_div_Fin (a b : Q) : ~ b == 0 -> (Fin a / Fin b)%num = Fin (a / b).
Proof. intros Hb. simpl. apply Qeq_bool_false in Hb. by rewrite Hb. Qed.

Lemma Math_floor_log10_pos (q : Q) :
  0 < q -> Math_floor_log10 (Fin q) = nZ (Qfloor_log10 q).
Proof. intros Hq. simpl. apply Qgt_alt in Hq. by rewrite Hq. Qed.

Lemma Math_pow10_nZ (k : Z) : Math_pow10 (nZ k) = Fin (10 ^ k).
Proof. unfold nZ, Math_pow10. by rewrite Qfloor_Z. Qed.

Lemma Qdiv_pos (a b : Q) : 0 < a -> 0 < b -> 0 < a / b.
Proof.
  intros Ha Hb. apply Qlt_shift_div_l; [exact Hb|]. lra.
Qed.

(** One branch of the nice-step choice: the chosen multiple of the
    magnitude [m] brackets the raw step. *)
Ltac nice_case m n raw :=
  split; [reflexivity|]; split; [auto 6|];
  fold m; clearbody m n raw;
  change (inject_Z 1) with 1 in *; change (inject_Z 2) with 2 in *;
  change (inject_Z 5) with 5 in *; change (inject_Z 10) with 10 in *;
  split; nra.

(** On a positive finite range and a positive finite number of steps the
    selector returns a positive finite step, between the raw step and 2.5
    times the raw step, of the shape [c * 10^k] with [c] in [{1,2,5,10}]. *)
Lemma getNiceStepSize_spec (r t : Q) :
  0 < r -> 0 < t ->
  exists (c : Z) (k : Z),
    getNiceStepSize (Fin r) (Fin t) = Fin (inject_Z c * 10 ^ k) /\
    (c = 1 \/ c = 2 \/ c = 5 \/ c = 10)%Z /\
    r / t <= inject_Z c * 10 ^ k <= (5 # 2) * (r / t).
Proof.
  intros Hr Ht.
  assert (Hraw : 0 < r / t) by by apply Qdiv_pos.
  unfold getNiceStepSize.
  rewrite num_div_Fin by lra.
  rewrite Math_floor_log10_pos by exact Hraw.
  rewrite Math_pow10_nZ.
  set (k := Qfloor_log10 (r / t)).
  destruct (Qfloor_log10_spec (r / t) Hraw) as [Hlo Hhi]. fold k in Hlo, Hhi.
  rewrite pow10_succ in Hhi.
  pose proof (pow10_pos k) as Hm.
  set (m := 10 ^ k) in *.
  rewrite num_div_Fin by lra.
  assert (Hn : r / t / m * m == r / t) by (field; lra).
  set (n := r / t / m) in *.
  set (raw := r / t) in *.
  destruct (Fin n <=? nZ 1)%num eqn:E1;
    [apply num_le_Fin in E1 | apply num_le_Fin_false in E1].
  { exists 1%Z, k. nice_case m n raw. }
  destruct (Fin n <=? nZ 2)%num eqn:E2;
    [apply num_le_Fin in E2 | apply num_le_Fin_false in E2].
  { exists 2%Z, k. nice_case m n raw. }
  destruct (Fin n <=? nZ 5)%num eqn:E5;
    [apply num_le_Fin in E5 | apply num_le_Fin_false in E5].
  { exists 5%Z, k. nice_case m n raw. }
  exists 10%Z, k. nice_case m n raw.
Qed.

Lemma getNiceStepSize_pos (r t : Q) :
  0 < r -> 0 < t ->
  exists s, getNiceStepSize (Fin r) (Fin t) = Fin s /\
            0 < s /\ r / t <= s <= (5 # 2) * (r / t).
Proof.
  intros Hr Ht.
  destruct (getNiceStepSize_spec r t Hr Ht) as (c & k & -> & Hc & Hb).
  exists (inject_Z c * 10 ^ k). split; [reflexivity|]. split; [|exact Hb].
  pose proof (Qdiv_pos r t Hr Ht). lra.
Qed.

(** On an empty range the selector returns the step [0]: the magnitude is
    [10^-Infinity = 0] and the normalised step [0/0] is [NaN]. *)
Lemma getNiceStepSize_zero_range (r t : Q) :
  r == 0 -> 0 < t -> exists s, getNiceStepSize (Fin r) (Fin t) = Fin s /\ s == 0.
Proof.
  intros Hr Ht. unfold getNiceStepSize.
  rewrite num_div_Fin by lra.
  assert (Hraw : r / t == 0) by (rewrite Hr; field; lra).
  assert (E : Math_floor_log10 (Fin (r / t)) = NInf).
  { simpl. apply Qeq_alt in Hraw. by rewrite Hraw. }
  rewrite E. simpl.
  apply Qeq_alt in Hraw. rewrite Hraw. simpl.
  exists (inject_Z 10 * 0). split; [reflexivity|]. lra.
Qed.

End StepSelector.

(** From here on the operations on numbers are unfolded by hand only. *)
Arguments num_add : simpl never.
Arguments num_sub : simpl never.
Arguments num_mul : simpl never.
Arguments num_div : simpl never.
Arguments num_le : simpl never.
Arguments num_lt : simpl never.
Arguments num_ge : simpl never.
Arguments num_gt : simpl never.
Arguments num_seq : simpl never.
Arguments Math_min : simpl never.
Arguments Math_max : simpl never.
Arguments Math_floor : simpl never.
Arguments Math_ceil : simpl never.

(** ** The tick walk *)

Section TickLoop.

Local Open Scope Q_scope.

Variables (min max step tickCount : num).

(** More fuel never changes a result. *)
Lemma tickLoop_mono (f : nat) : forall (f' : nat) cur ticks r,
  (f <= f')%nat ->
  tickLoop f min max step tickCount cur ticks = Some r ->
  tickLoop f' min max step tickCount cur ticks = Some r.
Proof.
  induction f as [|f IH]; intros f' cur ticks r Hle H.
  - destruct f'; simpl in *;
      destruct ((cur <=? max)%num && _); congruence.
  - destruct f' as [|f']; [lia|].
    simpl in *. destruct ((cur <=? max)%num && _); [|exact H].
    apply IH; [lia | exact H].
Qed.

(** The walk only appends. *)
Lemma tickLoop_prefix (f : nat) : forall cur ticks r,
  tickLoop f min max step tickCount cur ticks = Some r ->
  exists l, r = ticks ++ l.
Proof.
  induction f as [|f IH]; intros cur ticks r H; simpl in H.
  - destruct (_ && _); [discriminate|].
    exists []. rewrite app_nil_r. congruence.
  - destruct (_ && _).
    + apply IH in H as [l ->].
      destruct (cur >=? min)%num.
      * exists ([cur] ++ l). by rewrite app_assoc.
      * by exists l.
    + exists []. rewrite app_nil_r. congruence.
Qed.

(** A walk that starts at [NaN] stops at once. *)
Lemma tickLoop_NaN (f : nat) ticks :
  tickLoop f min max step tickCount NaN ticks = Some ticks.
Proof. by destruct f. Qed.

End TickLoop.

Section TickLoopFinite.

Local Open Scope Q_scope.

Variables (lo s : Q) (max tickCount : num).
Hypothesis step_pos : 0 < s.

Lemma ascending_snoc (c : Q) (ticks : list num) :
  ascending ticks -> Forall (collected lo c) ticks ->
  ascending (ticks ++ [Fin c]).
Proof.
  intros Hs Hall. apply StronglySorted_app. split; [|split].
  - intros x1 x2 H1 H2. apply list_elem_of_singleton in H2 as ->.
    rewrite Forall_forall in Hall.
    destruct (Hall x1 H1) as (q & -> & Hq).
    apply num_lt_Fin. lra.
  - exact Hs.
  - repeat constructor.
Qed.

Lemma collected_weaken (c c' : Q) (ticks : list num) :
  c <= c' -> Forall (collected lo c) ticks -> Forall (collected lo c') ticks.
Proof.
  intros Hc Hall. eapply Forall_impl; [exact Hall|]. intros x (q & -> & Hq).
  exists q. split; [reflexivity | lra].
Qed.

Lemma tickLoop_inv (f : nat) : forall (c : Q) ticks r,
  tickLoop f (Fin lo) max (Fin s) tickCount (Fin c) ticks = Some r ->
  ascending ticks -> Forall (collected lo c) ticks ->
  ascending r /\ exists c', Forall (collected lo c') r.
Proof.
  induction f as [|f IH]; intros c ticks r H Hs Hall; simpl in H.
  - destruct (_ && _); [discriminate|]. injection H as <-. eauto.
  - destruct (_ && _); [|injection H as <-; eauto].
    change (Fin c + Fin s)%num with (Fin (c + s)) in H.
    apply IH in H; [exact H| |].
    + destruct (Fin c >=? Fin lo)%num; [|exact Hs].
      by apply ascending_snoc.
    + destruct (Fin c >=? Fin lo)%num eqn:E.
      * apply Forall_app. split.
        -- apply (collected_weaken c); [lra | exact Hall].
        -- repeat constructor. exists c. split; [reflexivity|].
           unfold num_ge in E. apply num_le_Fin in E. lra.
      * apply (collected_weaken c); [lra | exact Hall].
Qed.

(** Termination: the cursor passes a finite [max] after finitely many
    steps. *)
Lemma tickLoop_terminates_in (hi : Q) (n : nat) : forall (c : Q) ticks,
  hi - c < inject_Z (Z.of_nat n) * s ->
  exists r, tickLoop n (Fin lo) (Fin hi) (Fin s) tickCount (Fin c) ticks
            = Some r.
Proof.
  induction n as [|n IH]; intros c ticks Hn.
  - simpl. assert (E : (Fin c <=? Fin hi)%num = false).
    { apply num_le_Fin_false. change (inject_Z (Z.of_nat 0)) with 0 in Hn. lra. }
    rewrite E. eauto.
  - simpl. destruct (_ && _); [|eauto].
    apply IH. rewrite Nat2Z.inj_succ in Hn. unfold Z.succ in Hn.
    rewrite inject_Z_plus in Hn. change (inject_Z 1) with 1 in Hn. lra.
Qed.

Lemma tickLoop_terminates (hi c : Q) ticks :
  exists n r,
    tickLoop n (Fin lo) (Fin hi) (Fin s) tickCount (Fin c) ticks = Some r.
Proof.
  set (z := (Qfloor ((hi - c) / s) + 1)%Z).
  exists (Z.to_nat z). apply tickLoop_terminates_in.
  assert (Hz : (hi - c) / s < inject_Z z) by apply Qlt_floor.
  assert (Hle : inject_Z z <= inject_Z (Z.of_nat (Z.to_nat z))).
  { rewrite <- Zle_Qle. lia. }
  assert (Hd : (hi - c) / s * s == hi - c) by (field; lra).
  set (d := (hi - c) / s) in *. clearbody d z. nra.
Qed.

End TickLoopFinite.

(** The safety bound: the walk never collects more than [2 * tickCount]
    ticks, for an integer tick count. *)
Lemma tickLoop_length (min max step : num) (n : Z) (f : nat) :
  forall cur ticks r,
  tickLoop f min max step (nZ n) cur ticks = Some r ->
  (Z.of_nat (length ticks) <= 2 * n)%Z ->
  (Z.of_nat (length r) <= 2 * n)%Z.
Proof.
  induction f as [|f IH]; intros cur ticks r H Hlen; simpl in H.
  - destruct (_ && _); [discriminate|]. by injection H as <-.
  - destruct (_ && _) eqn:E; [|by injection H as <-].
    apply IH in H; [exact H|].
    destruct (cur >=? min)%num; [|exact Hlen].
    apply andb_true_iff in E as [_ E].
    change (nNat (length ticks) <? nZ n * nZ 2)%num
      with (Fin (inject_Z (Z.of_nat (length ticks)))
            <? Fin (inject_Z n * inject_Z 2))%num in E.
    apply num_lt_Fin in E. rewrite <- inject_Z_mult, <- Zlt_Qlt in E.
    rewrite length_app. simpl. lia.
Qed.

(** The walk started at the floored minimum reaches the domain as soon as
    the step is no longer than the domain. *)
Lemma tickLoop_nonempty (lo hi s : Q) (n : Z) (f : nat) (r : list num) :
  (0 < s)%Q -> (s <= hi - lo)%Q -> (1 <= n)%Z ->
  tickLoop f (Fin lo) (Fin hi) (Fin s) (nZ n)
           (Fin (inject_Z (Qfloor (lo / s)) * s)) [] = Some r ->
  r <> [].
Proof.
  intros Hs Hfit Hn H.
  pose proof (Qfloor_le (lo / s)) as Hfl.
  pose proof (Qlt_floor (lo / s)) as Hfu.
  rewrite inject_Z_plus in Hfu. change (inject_Z 1) with 1%Q in Hfu.
  assert (Hd : (lo / s * s == lo)%Q) by (field; lra).
  set (d := (lo / s)%Q) in *. set (k := inject_Z (Qfloor d)) in *.
  assert (Hc : (k * s <= lo /\ lo < k * s + s)%Q) by (clearbody d k; nra).
  set (c := (k * s)%Q) in *. clearbody c. clear Hfl Hfu Hd. destruct Hc as [Hc1 Hc2].
  assert (Hroom : forall m : nat, m = 0%nat ->
            (nNat m <? nZ n * nZ 2)%num = true).
  { intros m ->. apply num_lt_Fin. rewrite <- inject_Z_mult, <- Zlt_Qlt. lia. }
  destruct f as [|f]; simpl in H.
  { rewrite (proj2 (num_le_Fin c hi)), Hroom in H by (reflexivity || lra).
    discriminate. }
  rewrite (proj2 (num_le_Fin c hi)), Hroom in H by (reflexivity || lra).
  simpl in H. destruct (Fin c >=? Fin lo)%num eqn:E.
  - apply tickLoop_prefix in H as [l ->]. by destruct l.
  - unfold num_ge in E. apply num_le_Fin_false in E.
    change (Fin c + Fin s)%num with (Fin (c + s)) in H.
    destruct f as [|f]; simpl in H.
    { rewrite (proj2 (num_le_Fin (c + s) hi)), Hroom in H by (reflexivity || lra).
      discriminate. }
    rewrite (proj2 (num_le_Fin (c + s) hi)), Hroom in H by (reflexivity || lra).
    simpl in H. unfold num_ge in H.
    rewrite (proj2 (num_le_Fin lo (c + s))) in H by lra.
    apply tickLoop_prefix in H as [l ->]. by destruct l.
Qed.

(** ** The extra tick *)

Lemma num_sub_NaN_r (x : num) : (x - NaN)%num = NaN.
Proof. by destruct x. Qed.

Lemma extraTickCond_NaN (dataMax step : num) :
  extraTickCond dataMax NaN step = false.
Proof. unfold extraTickCond. by rewrite num_sub_NaN_r. Qed.

Lemma addExtraTick_nil (dataMax step : num) : addExtraTick [] dataMax step = [].
Proof. unfold addExtraTick. simpl. by rewrite extraTickCond_NaN. Qed.

Lemma lastTickOf_snoc (l : list num) (x : num) : lastTickOf (l ++ [x]) = x.
Proof. unfold lastTickOf. by rewrite last_snoc. Qed.

Lemma collected_at_least (lo c : Q) (x : num) :
  collected lo c x -> at_least (Fin lo) x.
Proof.
  intros (q & -> & Hq). split; [apply num_le_Fin; lra | reflexivity].
Qed.

Lemma addExtraTick_ok (lo s c : Q) (dataMax : num) (r : list num) :
  (0 < s)%Q -> ascending r -> Forall (collected lo c) r ->
  ascending (addExtraTick r dataMax (Fin s)) /\
  Forall (at_least (Fin lo)) (addExtraTick r dataMax (Fin s)) /\
  (length r <= length (addExtraTick r dataMax (Fin s)) <= S (length r))%nat.
Proof.
  intros Hs Hasc Hall.
  assert (Hal : Forall (at_least (Fin lo)) r).
  { eapply Forall_impl; [exact Hall|]. apply collected_at_least. }
  destruct r as [|x0 r0] using rev_ind.
  { rewrite addExtraTick_nil. simpl. repeat split; auto. }
  clear IHr0. unfold addExtraTick. rewrite lastTickOf_snoc.
  destruct (extraTickCond dataMax x0 (Fin s)); [|repeat split; auto; lia].
  apply Forall_app in Hall as [Hall0 Hx0].
  apply Forall_singleton in Hx0 as (l & -> & Hl).
  change (Fin l + Fin s)%num with (Fin (l + s)).
  split; [|split].
  - apply StronglySorted_app. split; [|split].
    + intros x1 x2 H1 H2. apply list_elem_of_singleton in H2 as ->.
      apply elem_of_app in H1 as [H1|H1].
      * rewrite Forall_forall in Hall0.
        destruct (Hall0 x1 H1) as (q & -> & Hq).
        assert (Hlt : (Fin q <? Fin l)%num = true).
        { apply (StronglySorted_app_1_elem_of _ _ _ _ _ Hasc H1).
          by apply list_elem_of_singleton. }
        apply num_lt_Fin in Hlt. apply num_lt_Fin. lra.
      * apply list_elem_of_singleton in H1 as ->. apply num_lt_Fin. lra.
    + exact Hasc.
    + repeat constructor.
  - apply Forall_app. split; [exact Hal|].
    repeat constructor. apply num_le_Fin. lra.
  - rewrite !length_app. simpl. lia.
Qed.

(** ** The tick generator *)

Lemma nZ_le (a b : Z) : (nZ a <=? nZ b)%num = true <-> (a <= b)%Z.
Proof. unfold nZ. by rewrite num_le_Fin, <- Zle_Qle. Qed.

Lemma nZ_le_false (a b : Z) : (nZ a <=? nZ b)%num = false <-> (b < a)%Z.
Proof. unfold nZ. by rewrite num_le_Fin_false, <- Zlt_Qlt. Qed.

(** With a zero step the floored minimum is [NaN]: [min / 0] is infinite or
    [NaN], and an infinity times zero is [NaN]. *)
Lemma niceMin_zero_step (lo s : Q) :
  (s == 0)%Q -> (Math_floor (Fin lo / Fin s) * Fin s)%num = NaN.
Proof.
  intros Hs. unfold num_div.
  rewrite (proj2 (Qeq_bool_iff s 0) Hs).
  apply Qeq_alt in Hs.
  destruct (lo ?= 0)%Q; unfold inf_signed, Math_floor, num_mul;
    rewrite ?Hs; reflexivity.
Qed.

Lemma calculateYAxisTicks_single (sel : num -> num -> num) (fuel : nat)
    (min max tickCount dataMax : num) :
  (tickCount <=? nZ 1)%num = true ->
  calculateYAxisTicksWith sel fuel (min, max) tickCount dataMax = Some [min].
Proof. intros H. unfold calculateYAxisTicksWith. by rewrite H. Qed.

Lemma calculateYAxisTicks_walk (sel : num -> num -> num) (fuel : nat)
    (min max tickCount dataMax : num) :
  (tickCount <=? nZ 1)%num = false ->
  calculateYAxisTicksWith sel fuel (min, max) tickCount dataMax =
  let step := sel (max - min)%num (tickCount - nZ 1)%num in
  option_map (fun ticks => addExtraTick ticks dataMax step)
    (tickLoop fuel min max step tickCount
       (Math_floor (min / step) * step)%num []).
Proof.
  intros H. unfold calculateYAxisTicksWith. rewrite H. simpl.
  by destruct (tickLoop _ _ _ _ _ _ _).
Qed.




(** The same happens on a non-degenerate domain when the step is longer
    than the domain: no multiple of 10 lies in [[3, 9]]. *)
Example calculateYAxisTicks_empty_3_9 :
  calculateYAxisTicks 1 (nZ 3, nZ 9) (nZ 2) (nZ 9) = Some [].
Proof. reflexivity. Qed.

(** With three ticks as well: the step for the range 4.2 is 5. *)
Example calculateYAxisTicks_empty_three_ticks :
  calculateYAxisTicks 1 (Fin (1 # 2), Fin (47 # 10)) (nZ 3) (nZ 4) = Some [].
Proof. reflexivity. Qed.

(** The empty sequence is reached from the component: for all-zero data
    the computed domain is [(0, 0)]. *)
Example yAxisTicks_all_zero :
  let data : list item := [ {[ "a"%string := VNum (nZ 0) ]} ] in
  let chartLines := [ {| dataKey := "a" |} ] in
  yDomain data chartLines None = (nZ 0, nZ 0) /\
  yAxisTicks 0 data chartLines None = Some [].
Proof. vm_compute. split; reflexivity. Qed.

(** Example 4 of the specification. *)
Example calculateYAxisTicks_0_100 :
  calculateYAxisTicks 6 (nZ 0, nZ 100) (nZ 6) (nZ 97)
  = Some [nZ 0; nZ 20; nZ 40; nZ 60; nZ 80; nZ 100].
Proof. vm_compute. reflexivity. Qed.

(** ** Example 3 of the specification *)

(** C3 as stated fails: the selector does not return 50 on range 100 and
    5 target steps. *)
Lemma getNiceStepSize_100_5_counterexample :
  ~ (getNiceStepSize (nZ 100) (nZ 5) ≡ nZ 50).
Proof. vm_compute. discriminate. Qed.

(** C3, as the code has it.  [getNiceStepSize(100, 5)] returns 20, via
    rawStep = 20, magnitude = 10, normalizedStep = 2 (not at most 1, at most
    2), niceStep = 2. *)
Theorem getNiceStepSize_100_5 :
  let rawStep := (nZ 100 / nZ 5)%num in
  let magnitude := Math_pow10 (Math_floor_log10 rawStep) in
  let normalizedStep := (rawStep / magnitude)%num in
  rawStep ≡ nZ 20 /\
  magnitude ≡ nZ 10 /\
  normalizedStep ≡ nZ 2 /\
  (normalizedStep <=? nZ 1)%num = false /\
  (normalizedStep <=? nZ 2)%num = true /\
  getNiceStepSize (nZ 100) (nZ 5) = (nZ 2 * magnitude)%num /\
  getNiceStepSize (nZ 100) (nZ 5) ≡ nZ 20.
Proof. vm_compute. repeat split. Qed.

(** ** The guard of the tick generator *)


Lemma num_sub_1_pos (tickCount : num) :
  tickCount <> NaN -> (tickCount <=? nZ 1)%num = false ->
  (tickCount - nZ 1 >? nZ 0)%num = true.
Proof.
  intros Hnan H. destruct tickCount as [t| | |]; try done.
  apply num_le_Fin_false in H.
  change (Fin t - nZ 1)%num with (Fin (t + - inject_Z 1)).
  unfold num_gt. apply num_lt_Fin.
  change (inject_Z 1) with 1%Q in *. change (inject_Z 0) with 0%Q. lra.
Qed.



(** ** The extra tick, C7 *)

Lemma extraTickCond_finite (d l s : Q) :
  extraTickCond (Fin d) (Fin l) (Fin s) = true <->
  (0 < d - l /\ d - l < (1 # 10) * s)%Q.
Proof.
  unfold extraTickCond, num_gt.
  change (Fin d - Fin l)%num with (Fin (d + - l)).
  change (Fin s * Fin (1 # 10))%num with (Fin (s * (1 # 10))).
  unfold nZ. rewrite andb_true_iff, !num_lt_Fin.
  change (inject_Z 0) with 0%Q. split; intros [? ?]; split; lra.
Qed.

(** C7.  Past the guard, the result of [calculateYAxisTicks] is the walked
    sequence followed by the one tick [lastTick + step] exactly when the walk
    is not empty and [0 < dataMax - lastTick < 0.1 * step]; in every other
    case it is the walked sequence unchanged. *)
Theorem calculateYAxisTicks_extra_tick (min max tickCount dataMax : num)
    (fuel : nat) (walked : list num) :
  let step := getNiceStepSize (max - min)%num (tickCount - nZ 1)%num in
  let lastTick := lastTickOf walked in
  let close :=
    ((dataMax - lastTick >? nZ 0) && (dataMax - lastTick <? step * Fin (1 # 10)))%num in
  (tickCount <=? nZ 1)%num = false ->
  tickLoop fuel min max step tickCount (Math_floor (min / step) * step)%num []
    = Some walked ->
  exists result : list num,
    calculateYAxisTicks fuel (min, max) tickCount dataMax = Some result /\
    (result = walked ++ [(lastTick + step)%num]
     <-> walked <> [] /\ close = true) /\
    (~ (walked <> [] /\ close = true) -> result = walked) /\
    (forall d l s : Q,
       dataMax = Fin d -> last walked = Some (Fin l) -> step = Fin s ->
       (close = true <-> (0 < d - l /\ d - l < (1 # 10) * s)%Q)).
Proof.
  intros step lastTick close Hguard Hwalk.
  unfold calculateYAxisTicks.
  rewrite calculateYAxisTicks_walk by exact Hguard.
  cbv zeta. fold step. rewrite Hwalk. simpl.
  exists (addExtraTick walked dataMax step). split; [reflexivity|].
  assert (Hclose : close = extraTickCond dataMax lastTick step) by reflexivity.
  assert (Hnil : walked = [] -> close = false).
  { intros ->. rewrite Hclose. apply extraTickCond_NaN. }
  unfold addExtraTick. fold lastTick. rewrite <- Hclose.
  split; [|split].
  - destruct close.
    + split; [|reflexivity]. intros _. split; [|reflexivity].
      intros ->. by specialize (Hnil eq_refl).
    + split; [|intros [_ ?]; discriminate].
      intros E. apply (f_equal length) in E. rewrite length_app in E.
      simpl in E. lia.
  - intros Hno. destruct close; [|reflexivity].
    exfalso. apply Hno. split; [|reflexivity].
    intros ->. by specialize (Hnil eq_refl).
  - intros d l s Hd Hl Hs. rewrite Hclose. unfold lastTick, lastTickOf.
    rewrite Hl, Hd, Hs. apply extraTickCond_finite.
Qed.

Lemma calculateYAxisTicks_extra_tick_witness :
  let walked := [nZ 0; nZ 20; nZ 40; nZ 60; nZ 80; nZ 100] in
  (nZ 6 <=? nZ 1)%num = false /\
  tickLoop 6 (nZ 0) (nZ 100) (nZ 20) (nZ 6) (nZ 0) [] = Some walked /\
  calculateYAxisTicks 6 (nZ 0, nZ 100) (nZ 6) (nZ 101)
  = Some (walked ++ [nZ 120]).
Proof.
  intros walked. split; [reflexivity|]. split; [vm_compute; reflexivity|].
  destruct (calculateYAxisTicks_extra_tick (nZ 0) (nZ 100) (nZ 6) (nZ 101) 6
              walked)
    as (result & Hres & Hiff & _).
  - reflexivity.
  - vm_compute. reflexivity.
  - rewrite Hres. f_equal.
    transitivity
      (walked ++ [(lastTickOf walked
                   + getNiceStepSize (nZ 100 - nZ 0) (nZ 6 - nZ 1))%num]).
    + apply Hiff. split; [discriminate | vm_compute; reflexivity].
    + vm_compute. reflexivity.
Defined.

(** ** The range scan *)

Lemma scanRange_scannedValues (data : list item) (dataKeys : list string) :
  scanRange data dataKeys
  = foldl scanStep (PInf, NInf) (scannedValues data dataKeys).
Proof.
  unfold scanRange, scannedValues. generalize (PInf, NInf).
  induction data as [|it data IH]; intros acc; [reflexivity|].
  simpl. rewrite foldl_app, IH. f_equal.
  clear IH. revert acc.
  induction dataKeys as [|k ks IHk]; intros acc; [reflexivity|].
  simpl. rewrite <- IHk. by destruct acc.
Qed.

Lemma scannedValues_nil (data : list item) (dataKeys : list string) :
  scannedValues data dataKeys = [] <-> data = [] \/ dataKeys = [].
Proof.
  unfold scannedValues. split.
  - destruct data as [|it data]; [by left|].
    destruct dataKeys as [|k ks]; [by right|]. discriminate.
  - intros [-> | ->]; [reflexivity|].
    induction data as [|it data IH]; [reflexivity | exact IH].
Qed.

(** The scan of finite values: nothing scanned leaves the sentinels, and
    otherwise the result is the least and the greatest value scanned. *)
Lemma scan_finite (vs : list num) :
  Forall finite vs ->
  (vs = [] /\ foldl scanStep (PInf, NInf) vs = (PInf, NInf)) \/
  (exists lo hi : Q,
     foldl scanStep (PInf, NInf) vs = (Fin lo, Fin hi) /\
     Fin lo ∈ vs /\ Fin hi ∈ vs /\
     Forall (fun v => exists q, v = Fin q /\ (lo <= q <= hi)%Q) vs).
Proof.
  induction vs as [|x vs IH] using rev_ind; intros Hfin; [by left|].
  right. apply Forall_app in Hfin as [Hfin Hx].
  rewrite Forall_singleton in Hx. destruct x as [q| | |]; try (exfalso; exact Hx).
  rewrite foldl_app. simpl.
  destruct (IH Hfin) as [[-> ->] | (lo & hi & -> & Hlo & Hhi & Hall)].
  - exists q, q. split; [reflexivity|].
    split; [by apply list_elem_of_singleton|].
    split; [by apply list_elem_of_singleton|].
    repeat constructor. exists q. split; [reflexivity | lra].
  - assert (Hord : (lo <= hi)%Q).
    { rewrite Forall_forall in Hall.
      destruct (Hall _ Hlo) as (l' & [= <-] & Hl'). lra. }
    assert (Hin : forall v, v ∈ vs -> v ∈ vs ++ [Fin q]).
    { intros v Hv. apply elem_of_app. by left. }
    assert (Hnew : Fin q ∈ vs ++ [Fin q]).
    { apply elem_of_app. right. by apply list_elem_of_singleton. }
    assert (Hkeep : forall lo' hi' : Q, (lo' <= lo)%Q -> (hi <= hi')%Q ->
              (lo' <= q <= hi')%Q ->
              Forall (fun v => exists q0, v = Fin q0 /\ (lo' <= q0 <= hi')%Q)
                     (vs ++ [Fin q])).
    { intros lo' hi' H1 H2 H3. apply Forall_app. split.
      - eapply Forall_impl; [exact Hall|].
        intros v (q' & -> & Hq'). exists q'. split; [reflexivity | lra].
      - repeat constructor. exists q. split; [reflexivity | exact H3]. }
    unfold scanStep, Math_min, Math_max. simpl.
    destruct (Fin lo <=? Fin q)%num eqn:E1;
      [apply num_le_Fin in E1 | apply num_le_Fin_false in E1];
    (destruct (Fin hi <=? Fin q)%num eqn:E2;
      [apply num_le_Fin in E2 | apply num_le_Fin_false in E2]).
    + exists lo, q. repeat split; auto. apply Hkeep; lra.
    + exists lo, hi. repeat split; auto. apply Hkeep; lra.
    + exists q, q. repeat split; auto. apply Hkeep; lra.
    + exists q, hi. repeat split; auto. apply Hkeep; lra.
Qed.

(** ** Padding and rounding *)

Lemma getRoundingFactor_pos (q : Q) :
  exists f : Q, getRoundingFactor (Fin q) = Fin f /\ (0 < f)%Q.
Proof.
  unfold getRoundingFactor.
  repeat (match goal with |- context [if ?b then _ else _] => destruct b end);
    eexists; (split; [reflexivity | reflexivity]).
Qed.

Lemma roundDomain_brackets (a b : Q) :
  exists a' b' : Q,
    roundDomain (Fin a, Fin b) = (Fin a', Fin b') /\ (a' <= a /\ b <= b')%Q.
Proof.
  unfold roundDomain.
  destruct (getRoundingFactor_pos a) as (f & -> & Hf).
  destruct (getRoundingFactor_pos b) as (g & -> & Hg).
  rewrite !num_div_Fin by lra.
  exists (inject_Z (Qfloor (a / f)) * f)%Q, (inject_Z (Qceiling (b / g)) * g)%Q.
  split; [reflexivity|].
  pose proof (Qfloor_le (a / f)) as Hfl.
  pose proof (Qle_ceiling (b / g)) as Hce.
  assert (Ha : (a / f * f == a)%Q) by (field; lra).
  assert (Hb : (b / g * g == b)%Q) by (field; lra).
  set (x := (a / f)%Q) in *. set (y := (b / g)%Q) in *.
  set (m := inject_Z (Qfloor x)) in *. set (n := inject_Z (Qceiling y)) in *.
  clearbody x y m n. split; nra.
Qed.

Lemma padDomain_finite (lo hi p : Q) :
  (lo <= hi)%Q -> (0 <= hi)%Q -> (0 <= p)%Q ->
  exists a b : Q,
    padDomain (Fin lo) (Fin hi) (Fin p) = (Fin a, Fin b) /\ (0 <= a <= b)%Q.
Proof.
  intros Hle Hhi Hp. unfold padDomain.
  change (Fin hi - Fin lo)%num with (Fin (hi + - lo)).
  change (Fin (hi + - lo) * Fin p)%num with (Fin ((hi + - lo) * p)).
  change (Fin lo - Fin ((hi + - lo) * p))%num
    with (Fin (lo + - ((hi + - lo) * p))).
  change (Fin hi + Fin ((hi + - lo) * p))%num
    with (Fin (hi + (hi + - lo) * p)).
  assert (Hr : (0 <= (hi + - lo) * p)%Q) by nra.
  set (r := ((hi + - lo) * p)%Q) in *. clearbody r.
  unfold Math_max, nZ.
  destruct (Fin (inject_Z 0) <=? Fin (lo + - r))%num eqn:E;
    [apply num_le_Fin in E | apply num_le_Fin_false in E];
    change (inject_Z 0) with 0%Q in *;
    eexists _, _; (split; [reflexivity|]); lra.
Qed.

(** ** The Y-axis domain *)

Lemma scannedValues_elem (data : list item) (dataKeys : list string) (v : num) :
  v ∈ scannedValues data dataKeys <->
  exists it key, it ∈ data /\ key ∈ dataKeys /\ v = numberOrZero it key.
Proof.
  unfold scannedValues. rewrite list_elem_of_In, in_flat_map. split.
  - intros (it & Hit & Hv). apply in_map_iff in Hv as (key & <- & Hk).
    exists it, key. by rewrite !list_elem_of_In.
  - intros (it & key & Hit & Hk & ->). exists it.
    rewrite <- list_elem_of_In. split; [exact Hit|].
    apply in_map. by apply list_elem_of_In.
Qed.




(** C10 as stated fails: a row whose only scanned value is [Infinity]
    leaves [min] at the sentinel, so the fallback is returned although the
    data array and the key set are both non-empty. *)
Lemma calculateNiceYDomain_fallback_counterexample :
  let data : list item := [ {[ "a"%string := VNum PInf ]} ] in
  let dataKeys := [ "a"%string ] in
  data <> [] /\ dataKeys <> [] /\
  scannedValues data dataKeys = [PInf] /\
  noValueScanned (scanRange data dataKeys) = true /\
  calculateNiceYDomain data dataKeys None = (nZ 0, nZ 100).
Proof. vm_compute. repeat split; discriminate. Qed.

(** C10, as the code has it.  When every scanned value is finite, the
    fallback branch is taken exactly when the data array or the key set is
    empty, and then [[0, 100]] is returned; when both are non-empty the
    scanned minimum and maximum (least and greatest of the values read, a
    missing or non-numeric cell reading as 0) are padded and rounded. *)
Theorem calculateNiceYDomain_fallback (data : list item)
    (dataKeys : list string) (padding : option num) :
  Forall finite (scannedValues data dataKeys) ->
  (noValueScanned (scanRange data dataKeys) = true
   <-> data = [] \/ dataKeys = []) /\
  (data = [] \/ dataKeys = [] ->
   calculateNiceYDomain data dataKeys padding = (nZ 0, nZ 100)) /\
  (data <> [] -> dataKeys <> [] ->
   exists lo hi : Q,
     scanRange data dataKeys = (Fin lo, Fin hi) /\
     Fin lo ∈ scannedValues data dataKeys /\
     Fin hi ∈ scannedValues data dataKeys /\
     Forall (fun v => exists q, v = Fin q /\ (lo <= q <= hi)%Q)
            (scannedValues data dataKeys) /\
     calculateNiceYDomain data dataKeys padding
     = roundDomain (padDomain (Fin lo) (Fin hi)
                      (default (Fin (1 # 10)) padding))) /\
  (forall v, v ∈ scannedValues data dataKeys <->
     exists it key, it ∈ data /\ key ∈ dataKeys /\
       v = match it !! key with Some (VNum n) => n | _ => nZ 0 end).
Proof.
  intros Hfin. unfold calculateNiceYDomain.
  rewrite scanRange_scannedValues.
  pose proof (scannedValues_nil data dataKeys) as Hnil.
  destruct (scan_finite _ Hfin) as [[E ->] | (lo & hi & -> & Hlo & Hhi & Hall)].
  - apply Hnil in E. split; [|split; [|split]].
    + by split.
    + reflexivity.
    + intros Hd Hk. by destruct E.
    + apply scannedValues_elem.
  - assert (Hne : ~ (data = [] \/ dataKeys = [])).
    { intros E%Hnil. rewrite E in Hlo. by apply not_elem_of_nil in Hlo. }
    split; [|split; [|split]].
    + by split.
    + intros E. by destruct Hne.
    + intros _ _. exists lo, hi. by repeat split.
    + apply scannedValues_elem.
Qed.

Lemma calculateNiceYDomain_fallback_witness :
  let data : list item :=
    [ {[ "a"%string := VNum (nZ 5) ]}; {[ "b"%string := VStr "x" ]} ] in
  Forall finite (scannedValues data [ "a"%string ]) /\
  (noValueScanned (scanRange data [ "a"%string ]) = true
   <-> data = [] \/ [ "a"%string ] = []).
Proof.
  intros data.
  assert (Hfin : Forall finite (scannedValues data [ "a"%string ])).
  { vm_compute. repeat constructor. }
  split; [exact Hfin|].
  apply (calculateNiceYDomain_fallback data [ "a"%string ] None Hfin).
Defined.

(** ** The default padding, C4 *)


Lemma calculateNiceYDomain_scanned (data : list item) (dataKeys : list string)
    (padding : option num) :
  noValueScanned (scanRange data dataKeys) = false ->
  calculateNiceYDomain data dataKeys padding =
  let min := fst (scanRange data dataKeys) in
  let max := snd (scanRange data dataKeys) in
  let padding := default (Fin (1 # 10)) padding in
  let range := (max - min)%num in
  roundDomain (Math_max (nZ 0) (min - range * padding)%num,
               (max + range * padding)%num).
Proof. intros H. unfold calculateNiceYDomain. by rewrite H. Qed.



(** ** Options resolved with [||], C9 *)

Lemma num_or_zero (z d : num) : z ≡ nZ 0 -> num_or z d = d.
Proof.
  destruct z as [q| | |]; [|intros H; by destruct H..]. intros Hq.
  unfold num_or, truthy. change (q == 0)%Q in Hq.
  apply Qeq_bool_iff in Hq. by rewrite Hq.
Qed.

Lemma num_or_truthy (z d : num) : truthy d = true -> truthy (num_or z d) = true.
Proof. intros Hd. unfold num_or. by destruct (truthy z) eqn:E. Qed.

Lemma truthy_not_zero (z : num) : truthy z = true -> ~ (z ≡ nZ 0).
Proof.
  destruct z as [q| | |]; [|intros _ H; exact H..]. unfold truthy.
  rewrite negb_true_iff. intros Hq Hz. change (q == 0)%Q in Hz.
  apply Qeq_bool_iff in Hz. congruence.
Qed.

(** C9.  A padding or a tick count equal to 0 in [yAxisConfig] is replaced
    by the default (0.15, resp. 6): the domain and the ticks are those
    obtained with the option left out, and the resolved values are never 0. *)
Theorem zero_options_replaced (cfg : YAxisConfig) (z : num) :
  z ≡ nZ 0 ->
  let withPadding (o : option num) :=
    Some {| domain := domain cfg; padding := o; tickCount := tickCount cfg |} in
  let withTickCount (o : option num) :=
    Some {| domain := domain cfg; padding := padding cfg; tickCount := o |} in
  resolvePadding (withPadding (Some z)) = Fin (15 # 100) /\
  resolveTickCount (withTickCount (Some z)) = nZ 6 /\
  (forall data chartLines,
     yDomain data chartLines (withPadding (Some z))
     = yDomain data chartLines (withPadding None)) /\
  (forall fuel data chartLines,
     yAxisTicks fuel data chartLines (withTickCount (Some z))
     = yAxisTicks fuel data chartLines (withTickCount None)) /\
  (forall c : option YAxisConfig,
     ~ (resolvePadding c ≡ nZ 0) /\ ~ (resolveTickCount c ≡ nZ 0)).
Proof.
  intros Hz withPadding withTickCount.
  assert (Ep : resolvePadding (withPadding (Some z)) = Fin (15 # 100)).
  { unfold resolvePadding. simpl. by apply num_or_zero. }
  assert (Et : resolveTickCount (withTickCount (Some z)) = nZ 6).
  { unfold resolveTickCount. simpl. by apply num_or_zero. }
  split; [exact Ep|]. split; [exact Et|]. split; [|split].
  - intros data chartLines. unfold yDomain. by rewrite Ep.
  - intros fuel data chartLines. unfold yAxisTicks. by rewrite Et.
  - intros c. split; apply truthy_not_zero.
    + unfold resolvePadding, opt_or.
      destruct (c ≫= padding); [by apply num_or_truthy | reflexivity].
    + unfold resolveTickCount, opt_or.
      destruct (c ≫= tickCount); [by apply num_or_truthy | reflexivity].
Qed.

Lemma zero_options_replaced_witness :
  nZ 0 ≡ nZ 0 /\
  resolvePadding
    (Some {| domain := None; padding := Some (nZ 0); tickCount := Some (nZ 0) |})
  = Fin (15 # 100) /\
  resolveTickCount
    (Some {| domain := None; padding := Some (nZ 0); tickCount := Some (nZ 0) |})
  = nZ 6.
Proof.
  split; [reflexivity|].
  destruct (zero_options_replaced
              {| domain := None; padding := Some (nZ 0); tickCount := Some (nZ 0) |}
              (nZ 0)) as (Hp & Ht & _); [reflexivity|].
  split; [exact Hp | exact Ht].
Defined.

(** ** The percentage normalizer *)

Section Normalizer.

Variable StringToNumber : string -> num.

Abbreviation Number := (AreaChart.Number StringToNumber).
Abbreviation numericValue := (AreaChart.numericValue StringToNumber).
Abbreviation rowTotal := (AreaChart.rowTotal StringToNumber).
Abbreviation normalizeItem := (AreaChart.normalizeItem StringToNumber).
Abbreviation normalizedData := (AreaChart.normalizedData StringToNumber).

(** A row after [dataKeys.forEach(key => newItem[key] = f(key))]. *)
Lemma foldl_insert_lookup (f : string -> value) (keys : list string) :
  forall (m : item) (k : string),
  foldl (fun acc key => <[key := f key]> acc) m keys !! k
  = if decide (k ∈ keys) then Some (f k) else m !! k.
Proof.
  induction keys as [|x keys IH]; intros m k; simpl.
  - destruct (decide (k ∈ [])) as [H|_]; [|reflexivity].
    by apply not_elem_of_nil in H.
  - rewrite IH.
    destruct (decide (k ∈ keys)) as [Hin|Hout].
    + rewrite decide_True by (by apply elem_of_cons; right). reflexivity.
    + destruct (decide (x = k)) as [->|Hne].
      * rewrite decide_True by (by apply elem_of_cons; left).
        by rewrite lookup_insert_eq.
      * rewrite decide_False.
        -- by rewrite lookup_insert_ne.
        -- intros [->|H]%elem_of_cons; [congruence | contradiction].
Qed.

(** Missing and non-numeric cells count as 0, and so does a cell equal to
    0 or [NaN]: [numericValue] is never [NaN]. *)
Lemma numericValue_missing (it : item) (key : string) :
  it !! key = None -> numericValue it key = nZ 0.
Proof. intros H. unfold AreaChart.numericValue. by rewrite H. Qed.

Lemma numericValue_non_numeric (it : item) (key s : string) :
  it !! key = Some (VStr s) -> StringToNumber s = NaN ->
  numericValue it key = nZ 0.
Proof.
  intros H Hs. unfold AreaChart.numericValue. rewrite H. simpl. by rewrite Hs.
Qed.

Lemma num_or_not_NaN (x : num) : num_or x (nZ 0) <> NaN.
Proof.
  unfold num_or. destruct (truthy x) eqn:E; [|discriminate].
  by destruct x.
Qed.

Lemma num_gt_0_not_zero (t : num) : (t >? nZ 0)%num = true -> ~ (t ≡ nZ 0).
Proof.
  destruct t as [q| | |]; [|intros _ H; exact H..].
  unfold num_gt, nZ. rewrite num_lt_Fin. intros Hq Hz.
  change (q == inject_Z 0)%Q in Hz. rewrite Hz in Hq.
  by apply Qlt_irrefl in Hq.
Qed.

Lemma num_gt_0_zero (t : num) : t ≡ nZ 0 -> (t >? nZ 0)%num = false.
Proof.
  intros Hz. destruct (t >? nZ 0)%num eqn:E; [|reflexivity].
  by apply num_gt_0_not_zero in E.
Qed.

Lemma normalizeItem_lookup (dataKeys : list string) (it : item) (key : string) :
  (rowTotal dataKeys it >? nZ 0)%num = true ->
  normalizeItem dataKeys it !! key
  = if decide (key ∈ dataKeys)
    then Some (VNum (numericValue it key / rowTotal dataKeys it * nZ 100)%num)
    else it !! key.
Proof.
  intros H. unfold AreaChart.normalizeItem. rewrite H.
  apply (foldl_insert_lookup
           (fun key => VNum (numericValue it key / rowTotal dataKeys it * nZ 100)%num)).
Qed.

Lemma normalizeItem_unchanged (dataKeys : list string) (it : item) :
  (rowTotal dataKeys it >? nZ 0)%num = false -> normalizeItem dataKeys it = it.
Proof. intros H. unfold AreaChart.normalizeItem. by rewrite H. Qed.

(** *** Totals *)

Lemma finite_toQ (x : num) : finite x -> x = Fin (toQ x).
Proof. by destruct x. Qed.

Lemma foldl_add_not_finite (f : string -> num) (keys : list string) :
  forall x : num, ~ finite x ->
  ~ finite (foldl (fun sum key => sum + f key)%num x keys).
Proof.
  induction keys as [|k ks IH]; intros x Hx; [exact Hx|].
  simpl. apply IH. destruct x; [by destruct Hx|..]; by destruct (f k).
Qed.

(** A finite total is a sum of finite values. *)
Lemma foldl_add_finite_inv (f : string -> num) (keys : list string) :
  forall a q : Q,
  foldl (fun sum key => sum + f key)%num (Fin a) keys = Fin q ->
  (forall k, k ∈ keys -> finite (f k)) /\
  (q == a + Qsum (fun k => toQ (f k)) keys)%Q.
Proof.
  induction keys as [|k ks IH]; intros a q H; simpl in H.
  - injection H as ->. split; [|simpl; lra].
    intros k Hk. by apply not_elem_of_nil in Hk.
  - destruct (f k) as [b| | |] eqn:Ek.
    + change (Fin a + Fin b)%num with (Fin (a + b)) in H.
      apply IH in H as [Hfin Hsum]. split.
      * intros k' [->|Hk']%elem_of_cons; [by rewrite Ek | by apply Hfin].
      * simpl. rewrite Ek. simpl. lra.
    + exfalso. apply (foldl_add_not_finite f ks (Fin a + PInf)%num); [tauto|].
      by rewrite H.
    + exfalso. apply (foldl_add_not_finite f ks (Fin a + NInf)%num); [tauto|].
      by rewrite H.
    + exfalso. apply (foldl_add_not_finite f ks (Fin a + NaN)%num); [tauto|].
      by rewrite H.
Qed.

(** The total of values that are numerically [g k]. *)
Lemma foldl_add_equiv (f : string -> num) (g : string -> Q)
    (keys : list string) :
  (forall k, k ∈ keys -> f k ≡ Fin (g k)) ->
  forall a : Q,
  foldl (fun sum key => sum + f key)%num (Fin a) keys ≡ Fin (a + Qsum g keys).
Proof.
  induction keys as [|k ks IH]; intros Hf a; simpl.
  - apply Fin_equiv. lra.
  - assert (Hk : f k ≡ Fin (g k)) by (apply Hf; by left).
    destruct (f k) as [b| | |]; try (by destruct Hk).
    apply (proj1 (Fin_equiv _ _)) in Hk.
    change (Fin a + Fin b)%num with (Fin (a + b)).
    etransitivity.
    + apply IH. intros k' Hk'. apply Hf. by right.
    + apply Fin_equiv. lra.
Qed.

Lemma Qsum_scale (g : string -> Q) (q : Q) (keys : list string) :
  (Qsum (fun k => g k / q * 100) keys == Qsum g keys / q * 100)%Q.
Proof.
  induction keys as [|k ks IH]; simpl.
  - unfold Qdiv. ring.
  - rewrite IH. unfold Qdiv. ring.
Qed.

Lemma Qsum_zero (keys : list string) : (Qsum (fun _ => 0) keys == 0)%Q.
Proof. induction keys as [|k ks IH]; simpl; [reflexivity | lra]. Qed.

Lemma num_or_Fin (x : Q) : num_or (Fin x) (nZ 0) ≡ Fin x.
Proof.
  unfold num_or, truthy. destruct (Qeq_bool x 0) eqn:E; simpl; [|reflexivity].
  apply Qeq_bool_iff in E. apply Fin_equiv. change (inject_Z 0) with 0%Q. lra.
Qed.

Lemma over_infinity (x : num) : num_or (x / PInf * nZ 100)%num (nZ 0) = nZ 0.
Proof. by destruct x. Qed.


(** *** Idempotence *)

Lemma numericValue_normalized (dataKeys : list string) (it : item)
    (key : string) :
  (rowTotal dataKeys it >? nZ 0)%num = true -> key ∈ dataKeys ->
  numericValue (normalizeItem dataKeys it) key
  = num_or (numericValue it key / rowTotal dataKeys it * nZ 100)%num (nZ 0).
Proof.
  intros Hpos Hin. unfold AreaChart.numericValue at 1.
  rewrite normalizeItem_lookup by exact Hpos. by rewrite decide_True.
Qed.

Lemma numericValue_kept (dataKeys : list string) (it : item) (key : string) :
  key ∉ dataKeys ->
  numericValue (normalizeItem dataKeys it) key = numericValue it key.
Proof.
  intros Hout. destruct (rowTotal dataKeys it >? nZ 0)%num eqn:Hpos.
  - unfold AreaChart.numericValue.
    rewrite normalizeItem_lookup by exact Hpos. by rewrite decide_False.
  - by rewrite normalizeItem_unchanged.
Qed.

#[local] Instance value_equiv_equivalence : Equivalence (≡@{value}).
Proof.
  split.
  - intros [n|s]; [change (n ≡ n) | change (s = s)]; reflexivity.
  - intros [n|s] [m|t] H; try (by destruct H).
    change (m ≡ n). by symmetry.
  - intros [n|s] [m|t] [o|u] H1 H2; try (by destruct H1); try (by destruct H2).
    change (n ≡ o). by transitivity m.
Qed.

(** A row with a finite positive total: the normalized values sum to 100. *)
Lemma rowTotal_normalized (dataKeys : list string) (it : item) (q : Q) :
  rowTotal dataKeys it = Fin q -> (0 < q)%Q ->
  rowTotal dataKeys (normalizeItem dataKeys it) ≡ nZ 100 /\
  forall key, key ∈ dataKeys ->
    exists b : Q, numericValue it key = Fin b /\
      numericValue (normalizeItem dataKeys it) key ≡ Fin (b / q * 100).
Proof.
  intros Ht Hq.
  assert (Hpos : (rowTotal dataKeys it >? nZ 0)%num = true).
  { rewrite Ht. unfold num_gt, nZ. by apply num_lt_Fin. }
  destruct (foldl_add_finite_inv (numericValue it) dataKeys 0 q Ht)
    as [Hfin Hsum].
  assert (Hval : forall key, key ∈ dataKeys ->
            numericValue (normalizeItem dataKeys it) key
            ≡ Fin (toQ (numericValue it key) / q * 100)).
  { intros key Hin. rewrite numericValue_normalized by done.
    rewrite Ht, (finite_toQ _ (Hfin key Hin)).
    rewrite num_div_Fin by lra.
    change (Fin (toQ (Fin (toQ (numericValue it key))) / q) * nZ 100)%num
      with (Fin (toQ (numericValue it key) / q * 100)).
    apply num_or_Fin. }
  split.
  - unfold AreaChart.rowTotal at 1. etransitivity.
    + apply (foldl_add_equiv _ (fun k => toQ (numericValue it k) / q * 100)%Q).
      exact Hval.
    + apply Fin_equiv. rewrite Qsum_scale. change (inject_Z 100) with 100%Q.
      rewrite Qplus_0_l in Hsum. rewrite <- Hsum. field. lra.
  - intros key Hin. exists (toQ (numericValue it key)).
    split; [by apply finite_toQ, Hfin | by apply Hval].
Qed.

Lemma normalizeItem_idempotent (dataKeys : list string) (it : item) :
  normalizeItem dataKeys (normalizeItem dataKeys it) ≡ normalizeItem dataKeys it.
Proof.
  destruct (rowTotal dataKeys it >? nZ 0)%num eqn:Hpos;
    [|by rewrite !(normalizeItem_unchanged dataKeys it Hpos)].
  destruct (rowTotal dataKeys it) as [q| | |] eqn:Ht; try discriminate.
  - assert (Hq : (0 < q)%Q) by (unfold num_gt, nZ in Hpos; by apply num_lt_Fin in Hpos).
    destruct (rowTotal_normalized dataKeys it q Ht Hq) as [H100 Hval].
    destruct (rowTotal dataKeys (normalizeItem dataKeys it)) as [q'| | |] eqn:Ht';
      try (by destruct H100).
    apply (proj1 (Fin_equiv _ _)) in H100. change (inject_Z 100) with 100%Q in H100.
    assert (Hpos' : (rowTotal dataKeys (normalizeItem dataKeys it) >? nZ 0)%num = true).
    { rewrite Ht'. unfold num_gt, nZ. apply num_lt_Fin. rewrite H100. reflexivity. }
    intros key. rewrite (normalizeItem_lookup dataKeys (normalizeItem _ _)) by exact Hpos'.
    destruct (decide (key ∈ dataKeys)) as [Hin|Hout]; [|reflexivity].
    rewrite Ht'. rewrite normalizeItem_lookup by (by rewrite Ht).
    rewrite decide_True by exact Hin. rewrite Ht.
    destruct (Hval key Hin) as (b & Eb & Hb).
    rewrite Eb in *. rewrite num_div_Fin by lra.
    change (Fin (b / q) * nZ 100)%num with (Fin (b / q * 100)).
    destruct (numericValue (normalizeItem dataKeys it) key) as [b'| | |];
      try (by destruct Hb).
    apply (proj1 (Fin_equiv _ _)) in Hb. rewrite num_div_Fin by (rewrite H100; discriminate).
    apply Some_Forall2. change (b' / q' * 100 == b / q * 100)%Q.
    rewrite <- Hb, H100. field.
  - assert (Hzero : forall key, key ∈ dataKeys ->
              numericValue (normalizeItem dataKeys it) key ≡ Fin 0).
    { intros key Hin. rewrite numericValue_normalized by (by rewrite ?Ht).
      rewrite Ht, over_infinity. reflexivity. }
    assert (Ht' : rowTotal dataKeys (normalizeItem dataKeys it) ≡ nZ 0).
    { unfold AreaChart.rowTotal at 1. etransitivity.
      - apply (foldl_add_equiv _ (fun _ => 0%Q)). exact Hzero.
      - apply Fin_equiv. rewrite Qsum_zero. reflexivity. }
    rewrite (normalizeItem_unchanged dataKeys (normalizeItem _ _));
      [reflexivity | by apply num_gt_0_zero].
Qed.

Lemma normalizeItem_fixed (dataKeys : list string) (it : item) :
  rowTotal dataKeys it ≡ nZ 100 ->
  forall key,
    numericValue (normalizeItem dataKeys it) key ≡ numericValue it key.
Proof.
  intros H100 key.
  destruct (decide (key ∈ dataKeys)) as [Hin|Hout];
    [|by rewrite numericValue_kept].
  destruct (rowTotal dataKeys it) as [q| | |] eqn:Ht; try (by destruct H100).
  apply (proj1 (Fin_equiv _ _)) in H100. change (inject_Z 100) with 100%Q in H100.
  assert (Hq : (0 < q)%Q) by (rewrite H100; reflexivity).
  destruct (rowTotal_normalized dataKeys it q Ht Hq) as [_ Hval].
  destruct (Hval key Hin) as (b & -> & Hb).
  etransitivity; [exact Hb|]. apply Fin_equiv. rewrite H100. field.
Qed.

Lemma normalizedData_idempotent (variant : AreaChart.AreaChartVariant)
    (data : list item) (chartAreas : list AreaChart.AreaConfig) :
  normalizedData variant (normalizedData variant data chartAreas) chartAreas
  ≡ normalizedData variant data chartAreas.
Proof.
  destruct variant; try reflexivity.
  unfold AreaChart.normalizedData.
  induction data as [|it data IH]; simpl; constructor; [|exact IH].
  apply normalizeItem_idempotent.
Qed.

(** C8.  When the values of every row at the given keys sum to 100, the
    normalizer returns rows with the same numeric value at every key (and the
    same cells outside the keys); and normalizing twice gives the same rows as
    normalizing once, whatever the data. *)
Theorem normalizedData_fixed_point (variant : AreaChart.AreaChartVariant)
    (data : list item) (chartAreas : list AreaChart.AreaConfig) :
  let dataKeys := map AreaChart.dataKey chartAreas in
  (forall it, it ∈ data -> rowTotal dataKeys it ≡ nZ 100) ->
  Forall2 (fun it it' =>
             (forall key, numericValue it' key ≡ numericValue it key) /\
             (forall key, key ∉ dataKeys -> it' !! key = it !! key))
          data (normalizedData variant data chartAreas) /\
  normalizedData variant (normalizedData variant data chartAreas) chartAreas
  ≡ normalizedData variant data chartAreas.
Proof.
  intros dataKeys H100. split; [|apply normalizedData_idempotent].
  assert (Hsame : Forall2 (fun it it' : item =>
             (forall key, numericValue it' key ≡ numericValue it key) /\
             (forall key, key ∉ dataKeys -> it' !! key = it !! key)) data data).
  { apply Forall_Forall2_diag, Forall_forall. intros it _. by split. }
  destruct variant; try exact Hsame. clear Hsame.
  unfold AreaChart.normalizedData. fold dataKeys.
  change (map (normalizeItem dataKeys) data) with (normalizeItem dataKeys <$> data).
  apply Forall2_fmap_r, Forall_Forall2_diag, Forall_forall.
  intros it Hit. split.
  - apply normalizeItem_fixed. by apply H100.
  - intros key Hout.
    destruct (rowTotal dataKeys it >? nZ 0)%num eqn:Hpos.
    + rewrite normalizeItem_lookup by exact Hpos. by rewrite decide_False.
    + by rewrite normalizeItem_unchanged.
Qed.

End Normalizer.


Lemma normalizedData_fixed_point_witness :
  let data : list item :=
    [ {[ "x"%string := VNum (nZ 25); "y"%string := VNum (nZ 75) ]} ] in
  let areas := [ {| AreaChart.dataKey := "x" |}; {| AreaChart.dataKey := "y" |} ] in
  (forall it, it ∈ data ->
     AreaChart.rowTotal AreaChart.digitsToNumber
       (map AreaChart.dataKey areas) it ≡ nZ 100) /\
  AreaChart.normalizedData AreaChart.digitsToNumber AreaChart.StackedExpanded
    (AreaChart.normalizedData AreaChart.digitsToNumber
       AreaChart.StackedExpanded data areas) areas
  ≡ AreaChart.normalizedData AreaChart.digitsToNumber
      AreaChart.StackedExpanded data areas.
Proof.
  intros data areas.
  assert (H100 : forall it, it ∈ data ->
            AreaChart.rowTotal AreaChart.digitsToNumber
              (map AreaChart.dataKey areas) it ≡ nZ 100).
  { intros it Hit. apply list_elem_of_singleton in Hit. rewrite Hit.
    vm_compute. reflexivity. }
  split; [exact H100|].
  apply (normalizedData_fixed_point AreaChart.digitsToNumber
           AreaChart.StackedExpanded data areas H100).
Defined.

(** * Further properties *)

(** ** The step selector returns the least nice number above the raw step *)

Section NiceNumbers.

Local Open Scope Q_scope.

(** The branch taken by the selector, with the magnitude it uses. *)
Lemma getNiceStepSize_cases (r t : Q) :
  0 < r -> 0 < t ->
  let k := Qfloor_log10 (r / t) in
  let n := r / t / 10 ^ k in
  exists c : Z,
    getNiceStepSize (Fin r) (Fin t) = Fin (inject_Z c * 10 ^ k) /\
    ((c = 1%Z /\ n <= 1) \/ (c = 2%Z /\ 1 < n <= 2) \/
     (c = 5%Z /\ 2 < n <= 5) \/ (c = 10%Z /\ 5 < n)).
Proof.
  intros Hr Ht k n.
  assert (Hraw : 0 < r / t) by by apply Qdiv_pos.
  unfold getNiceStepSize.
  rewrite num_div_Fin by lra.
  rewrite Math_floor_log10_pos by exact Hraw.
  rewrite Math_pow10_nZ. fold k.
  pose proof (pow10_pos k) as Hm.
  rewrite num_div_Fin by lra. fold n.
  destruct (Fin n <=? nZ 1)%num eqn:E1;
    [apply num_le_Fin in E1 | apply num_le_Fin_false in E1];
    change (inject_Z 1) with 1 in E1.
  { exists 1%Z. split; [reflexivity | tauto]. }
  destruct (Fin n <=? nZ 2)%num eqn:E2;
    [apply num_le_Fin in E2 | apply num_le_Fin_false in E2];
    change (inject_Z 2) with 2 in E2.
  { exists 2%Z. split; [reflexivity | tauto]. }
  destruct (Fin n <=? nZ 5)%num eqn:E5;
    [apply num_le_Fin in E5 | apply num_le_Fin_false in E5];
    change (inject_Z 5) with 5 in E5.
  { exists 5%Z. split; [reflexivity | tauto]. }
  exists 10%Z. split; [reflexivity | tauto].
Qed.

Lemma niceFactor_bounds (c : Z) : niceFactor c -> 1 <= inject_Z c <= 10.
Proof.
  intros [-> | [-> | [-> | ->]]]; split; discriminate.
Qed.

Lemma pow10_le (j k : Z) : (j <= k)%Z -> 10 ^ j <= 10 ^ k.
Proof. intros H. apply Qpower_le_compat_l; [exact H | discriminate]. Qed.

(** No nice number lies strictly between the raw step and the selected
    step. *)
Lemma nice_least (raw y : Q) (k c : Z) :
  10 ^ k <= raw -> raw < 10 ^ (k + 1) ->
  ((c = 1%Z /\ raw / 10 ^ k <= 1) \/ (c = 2%Z /\ 1 < raw / 10 ^ k <= 2) \/
   (c = 5%Z /\ 2 < raw / 10 ^ k <= 5) \/ (c = 10%Z /\ 5 < raw / 10 ^ k)) ->
  nice y -> raw <= y -> inject_Z c * 10 ^ k <= y.
Proof.
  intros Hlo Hhi Hc (c' & j & Hc' & Hy) Hle.
  pose proof (pow10_pos k) as Hm. pose proof (pow10_pos j) as Hj.
  pose proof (niceFactor_bounds c' Hc') as Hb'.
  rewrite pow10_succ in Hhi.
  assert (Hn : raw / 10 ^ k * 10 ^ k == raw) by (field; lra).
  set (n := raw / 10 ^ k) in *.
  assert (Hcb : inject_Z c * 10 ^ k <= 10 * 10 ^ k /\
                (raw <= 10 ^ k -> inject_Z c * 10 ^ k <= 10 ^ k)).
  { set (m := 10 ^ k) in *. clearbody m n.
    destruct Hc as [[-> H]|[[-> H]|[[-> H]|[-> H]]]];
      change (inject_Z 1) with 1; change (inject_Z 2) with 2;
      change (inject_Z 5) with 5; change (inject_Z 10) with 10;
      (split; [|intros ?]); nra. }
  destruct Hcb as [Hc10 Hc1].
  destruct (Z_lt_le_dec k j) as [Hkj|Hjk].
  - (* a larger magnitude *)
    assert (H1 : 10 ^ (k + 1) <= 10 ^ j) by (apply pow10_le; lia).
    rewrite pow10_succ in H1. rewrite Hy.
    set (m := 10 ^ k) in *. set (mj := 10 ^ j) in *.
    clearbody m mj n. nra.
  - destruct (Z.eq_dec j k) as [->|Hne].
    + (* the same magnitude *)
      rewrite Hy. rewrite Hy in Hle.
      apply Qmult_le_compat_r; [|lra].
      assert (Hnc : n <= inject_Z c') by (set (m := 10 ^ k) in *; clearbody m n; nra).
      clear - Hc Hc' Hnc. clearbody n.
      destruct Hc as [[-> H]|[[-> H]|[[-> H]|[-> H]]]];
      destruct Hc' as [-> | [-> | [-> | ->]]];
        change (inject_Z 1) with 1 in *; change (inject_Z 2) with 2 in *;
        change (inject_Z 5) with 5 in *; change (inject_Z 10) with 10 in *;
        lra.
    + (* a smaller magnitude: [y] is at most [10^k] *)
      assert (H1 : 10 ^ (j + 1) <= 10 ^ k) by (apply pow10_le; lia).
      rewrite pow10_succ in H1.
      assert (Hyk : y <= 10 ^ k).
      { rewrite Hy. set (m := 10 ^ k) in *. set (mj := 10 ^ j) in *.
        clearbody m mj n. nra. }
      assert (raw <= 10 ^ k) by lra. specialize (Hc1 H). lra.
Qed.

Lemma nice_pos (y : Q) : nice y -> 0 < y.
Proof.
  intros (c & k & Hc & ->). pose proof (niceFactor_bounds c Hc).
  pose proof (pow10_pos k). nra.
Qed.

Lemma nice_times_10 (y : Q) : nice y -> nice (10 * y).
Proof.
  intros (c & k & Hc & Hy). exists c, (k + 1)%Z. split; [exact Hc|].
  rewrite pow10_succ, Hy. ring.
Qed.

Lemma nice_div_10 (y : Q) : nice y -> nice (y / 10).
Proof.
  intros (c & k & Hc & Hy). exists c, (k - 1)%Z. split; [exact Hc|].
  assert (E : 10 ^ k == 10 ^ (k - 1) * 10).
  { rewrite <- pow10_succ. by replace (k - 1 + 1)%Z with k by lia. }
  rewrite Hy, E. field.
Qed.

(** The selector, summarised: a nice number, at least the raw step, and
    below every other nice number that is at least the raw step. *)
Lemma least_nice_step (r t : Q) :
  0 < r -> 0 < t ->
  exists s : Q,
    getNiceStepSize (Fin r) (Fin t) = Fin s /\
    nice s /\ r / t <= s /\
    (forall y, nice y -> r / t <= y -> s <= y).
Proof.
  intros Hr Ht.
  assert (Hraw : 0 < r / t) by by apply Qdiv_pos.
  destruct (getNiceStepSize_cases r t Hr Ht) as (c & E & Hc).
  destruct (Qfloor_log10_spec (r / t) Hraw) as [Hlo Hhi].
  set (k := Qfloor_log10 (r / t)) in *.
  exists (inject_Z c * 10 ^ k). split; [exact E|].
  assert (Hnice : nice (inject_Z c * 10 ^ k)).
  { exists c, k. split; [|reflexivity].
    unfold niceFactor. clear - Hc. intuition. }
  assert (Hleast : forall y, nice y -> r / t <= y -> inject_Z c * 10 ^ k <= y).
  { intros y Hy Hle. by apply (nice_least (r / t) y k c). }
  split; [exact Hnice|]. split; [|exact Hleast].
  pose proof (pow10_pos k) as Hm. rewrite pow10_succ in Hhi.
  assert (Hn : r / t / 10 ^ k * 10 ^ k == r / t) by (field; lra).
  set (n := r / t / 10 ^ k) in *. set (m := 10 ^ k) in *.
  set (raw := r / t) in *. clearbody n m raw. clear Hleast Hnice E.
  destruct Hc as [[-> H]|[[-> H]|[[-> H]|[-> H]]]];
    change (inject_Z 1) with 1; change (inject_Z 2) with 2;
    change (inject_Z 5) with 5; change (inject_Z 10) with 10; nra.
Qed.

End NiceNumbers.



(** X2.  The selected step is monotone: a wider range, or fewer target
    steps, never gives a smaller step. *)
Theorem getNiceStepSize_monotone (r1 r2 t1 t2 : Q) :
  (0 < r1)%Q -> (r1 <= r2)%Q -> (0 < t2)%Q -> (t2 <= t1)%Q ->
  exists s1 s2 : Q,
    getNiceStepSize (Fin r1) (Fin t1) = Fin s1 /\
    getNiceStepSize (Fin r2) (Fin t2) = Fin s2 /\
    (s1 <= s2)%Q.
Proof.
  intros Hr1 Hr Ht2 Ht.
  destruct (least_nice_step r1 t1) as (s1 & E1 & _ & _ & Hleast1);
    [lra..|].
  destruct (least_nice_step r2 t2) as (s2 & E2 & Hn2 & Hle2 & _);
    [lra..|].
  exists s1, s2. split; [exact E1|]. split; [exact E2|].
  apply Hleast1; [exact Hn2|].
  apply Qle_trans with (r2 / t2)%Q; [|exact Hle2].
  apply Qle_shift_div_l; [lra|].
  assert (Hd : (r1 / t1 * t1 == r1)%Q) by (field; lra).
  assert (Hp : (0 < r1 / t1)%Q) by (apply Qdiv_pos; lra).
  set (x := (r1 / t1)%Q) in *. clearbody x. nra.
Qed.

Lemma getNiceStepSize_monotone_witness :
  (0 < 70)%Q /\ (70 <= 100)%Q /\ (0 < 4)%Q /\ (4 <= 5)%Q /\
  exists s1 s2 : Q,
    getNiceStepSize (Fin 70) (Fin 5) = Fin s1 /\
    getNiceStepSize (Fin 100) (Fin 4) = Fin s2 /\
    (s1 <= s2)%Q.
Proof.
  split; [reflexivity|]. split; [discriminate|].
  split; [reflexivity|]. split; [discriminate|].
  apply (getNiceStepSize_monotone 70 100 5 4);
    [reflexivity | discriminate | reflexivity | discriminate].
Defined.



(** X4.  A nice number is a fixed point: asked for one step over a range
    that is itself [c * 10^k], the selector returns that range. *)
Theorem getNiceStepSize_fixed (y : Q) :
  nice y -> getNiceStepSize (Fin y) (nZ 1) ≡ Fin y.
Proof.
  intros Hy. pose proof (nice_pos y Hy) as Hpos.
  destruct (least_nice_step y 1 Hpos)
    as (s & E & Hn & Hle & Hleast); [reflexivity|].
  change (nZ 1) with (Fin 1). rewrite E. apply Fin_equiv.
  assert (Hraw : (y / 1 == y)%Q) by field.
  rewrite Hraw in Hle.
  assert (s <= y)%Q by (apply Hleast; [exact Hy | rewrite Hraw; lra]).
  lra.
Qed.

Lemma getNiceStepSize_fixed_witness :
  nice 500 /\ getNiceStepSize (Fin 500) (nZ 1) ≡ Fin 500.
Proof.
  assert (H : nice 500).
  { exists 5%Z, 2%Z. split; [right; right; left; reflexivity | reflexivity]. }
  split; [exact H | exact (getNiceStepSize_fixed 500 H)].
Defined.



(** ** The walked ticks in closed form *)

Section ClosedForm.

Local Open Scope Q_scope.

Lemma tickLoop_deterministic (min max step tickCount cur : num)
    (ticks r r' : list num) (f f' : nat) :
  tickLoop f min max step tickCount cur ticks = Some r ->
  tickLoop f' min max step tickCount cur ticks = Some r' ->
  r = r'.
Proof.
  intros H H'.
  apply (tickLoop_mono _ _ _ _ _ (Nat.max f f')) in H; [|lia].
  apply (tickLoop_mono _ _ _ _ _ (Nat.max f f')) in H'; [|lia].
  congruence.
Qed.

Lemma inject_nat_succ (k : nat) :
  inject_Z (Z.of_nat (S k)) == inject_Z (Z.of_nat k) + 1.
Proof. rewrite Nat2Z.inj_succ. unfold Z.succ. by rewrite inject_Z_plus. Qed.

Lemma inject_nat_nonneg (k : nat) : 0 <= inject_Z (Z.of_nat k).
Proof. change 0 with (inject_Z 0). rewrite <- Zle_Qle. lia. Qed.

(** From a cursor inside the domain the walk pushes every cursor until it
    passes [hi], as long as the safety bound leaves room. *)
Lemma tickLoop_pushes (lo hi s : Q) (n : Z) (k : nat) :
  0 < s ->
  forall (fuel : nat) (c : Q) (ticks : list num),
  (k <= fuel)%nat -> lo <= c ->
  (Z.of_nat (length ticks) + Z.of_nat k <= 2 * n)%Z ->
  hi < c + inject_Z (Z.of_nat k) * s ->
  ((0 < k)%nat -> c + (inject_Z (Z.of_nat k) - 1) * s <= hi) ->
  tickLoop fuel (Fin lo) (Fin hi) (Fin s) (nZ n) (Fin c) ticks
  = Some (ticks ++ stepsFrom c s k).
Proof.
  intros Hs. induction k as [|k IH]; intros fuel c ticks Hf Hc Hroom Hend Hlast.
  - assert (E : (Fin c <=? Fin hi)%num = false).
    { apply num_le_Fin_false. change (inject_Z (Z.of_nat 0)) with 0 in Hend. lra. }
    destruct fuel; simpl; rewrite E; simpl; by rewrite app_nil_r.
  - destruct fuel as [|fuel]; [lia|].
    pose proof (inject_nat_succ k) as Hk.
    pose proof (inject_nat_nonneg k) as Hk0.
    specialize (Hlast ltac:(lia)).
    set (K := inject_Z (Z.of_nat (S k))) in *.
    set (K' := inject_Z (Z.of_nat k)) in *.
    assert (E1 : (Fin c <=? Fin hi)%num = true).
    { apply num_le_Fin. clearbody K K'. nra. }
    assert (E2 : (nNat (length ticks) <? nZ n * nZ 2)%num = true).
    { apply num_lt_Fin. rewrite <- inject_Z_mult, <- Zlt_Qlt. lia. }
    assert (E3 : (Fin c >=? Fin lo)%num = true) by (by apply num_le_Fin).
    simpl. rewrite E1, E2, E3. simpl.
    change (Fin c + Fin s)%num with (Fin (c + s)).
    rewrite IH.
    + by rewrite <- app_assoc.
    + lia.
    + lra.
    + rewrite length_app. simpl. lia.
    + fold K'. clearbody K K'. nra.
    + intros _. fold K'. clearbody K K'. nra.
Qed.

Lemma stepsFrom_length (c s : Q) (k : nat) : length (stepsFrom c s k) = k.
Proof. revert c. induction k as [|k IH]; intros c; simpl; [|rewrite IH]; done. Qed.

Lemma stepsFrom_lookup (s : Q) (k : nat) : forall (c : Q) (i : nat),
  (i < k)%nat ->
  exists q, stepsFrom c s k !! i = Some (Fin q) /\
            q == c + inject_Z (Z.of_nat i) * s.
Proof.
  induction k as [|k IH]; intros c i Hi; [lia|].
  destruct i as [|i].
  - exists c. split; [reflexivity|]. change (inject_Z (Z.of_nat 0)) with 0. lra.
  - destruct (IH (c + s) i) as (q & E & Hq); [lia|].
    exists q. split; [exact E|].
    pose proof (inject_nat_succ i) as HS.
    set (I := inject_Z (Z.of_nat (S i))) in *.
    set (I' := inject_Z (Z.of_nat i)) in *. clearbody I I'. nra.
Qed.

Lemma stepsFrom_elem (s c : Q) (k : nat) (x : num) :
  x ∈ stepsFrom c s k ->
  exists (i : nat) (q : Q), (i < k)%nat /\ x = Fin q /\
    q == c + inject_Z (Z.of_nat i) * s.
Proof.
  intros Hx. apply list_elem_of_lookup in Hx as [i Hi].
  assert (Hlt : (i < k)%nat).
  { apply lookup_lt_Some in Hi. by rewrite stepsFrom_length in Hi. }
  destruct (stepsFrom_lookup s k c i Hlt) as (q & E & Hq).
  exists i, q. split; [exact Hlt|]. split; [congruence | exact Hq].
Qed.

Lemma stepsFrom_spaced (s : Q) (k : nat) : forall c : Q,
  evenlySpaced (Fin s) (stepsFrom c s k).
Proof.
  induction k as [|k IH]; intros c i a b Ha Hb; [discriminate|].
  destruct i as [|i]; simpl in Ha, Hb.
  - injection Ha as <-. destruct k; [discriminate|].
    simpl in Hb. by injection Hb as <-.
  - by apply (IH (c + s) i).
Qed.

Lemma stepsFrom_last (s : Q) (k : nat) : forall c : Q,
  exists q, last (stepsFrom c s (S k)) = Some (Fin q) /\
            q == c + inject_Z (Z.of_nat k) * s.
Proof.
  induction k as [|k IH]; intros c.
  - exists c. split; [reflexivity|]. change (inject_Z (Z.of_nat 0)) with 0. lra.
  - destruct (IH (c + s)) as (q & E & Hq).
    exists q. split.
    + change (stepsFrom c s (S (S k)))
        with (Fin c :: stepsFrom (c + s) s (S k)).
      rewrite last_cons, E. reflexivity.
    + pose proof (inject_nat_succ k) as HS.
      set (I := inject_Z (Z.of_nat (S k))) in *.
      set (I' := inject_Z (Z.of_nat k)) in *. clearbody I I'. nra.
Qed.

(** The number of multiples of [s] from [c1] up to [hi]. *)
Lemma ticks_upto (hi c1 s : Q) :
  0 < s ->
  let k := Z.to_nat (Qfloor ((hi - c1) / s) + 1) in
  hi < c1 + inject_Z (Z.of_nat k) * s /\
  ((0 < k)%nat -> c1 + (inject_Z (Z.of_nat k) - 1) * s <= hi).
Proof.
  intros Hs k.
  pose proof (Qfloor_le ((hi - c1) / s)) as Hfl.
  pose proof (Qlt_floor ((hi - c1) / s)) as Hfu.
  assert (Hd : (hi - c1) / s * s == hi - c1) by (field; lra).
  set (d := (hi - c1) / s) in *. set (z := Qfloor d) in *.
  rewrite inject_Z_plus in Hfu. change (inject_Z 1) with 1 in Hfu.
  destruct (Z_le_gt_dec 0 (z + 1)) as [Hz|Hz].
  - assert (Ek : inject_Z (Z.of_nat k) == inject_Z z + 1).
    { unfold k. rewrite Z2Nat.id by exact Hz.
      rewrite inject_Z_plus. reflexivity. }
    split; [|intros _]; rewrite Ek; clearbody d z; nra.
  - assert (Ek : k = 0%nat) by (unfold k; lia). rewrite Ek. split; [|lia].
    change (inject_Z (Z.of_nat 0)) with 0.
    assert (Hz' : inject_Z z + 1 <= 0).
    { change (inject_Z z + inject_Z 1 <= inject_Z 0).
      rewrite <- inject_Z_plus, <- Zle_Qle. lia. }
    clearbody d z. nra.
Qed.

(** The walk from the floored minimum: at most one cursor is skipped, then
    every multiple of the step up to [hi] is collected. *)
Lemma walk_closed_form (lo hi s : Q) (n : Z) :
  0 < s -> lo <= hi -> (1 <= n)%Z ->
  exists (c1 : Q) (k : nat),
    lo <= c1 < lo + s /\
    (exists j : Z, c1 == inject_Z j * s) /\
    hi < c1 + inject_Z (Z.of_nat k) * s /\
    ((0 < k)%nat -> c1 + (inject_Z (Z.of_nat k) - 1) * s <= hi) /\
    ((Z.of_nat k <= 2 * n)%Z ->
     tickLoop (S k) (Fin lo) (Fin hi) (Fin s) (nZ n)
       (Fin (inject_Z (Qfloor (lo / s)) * s)) []
     = Some (stepsFrom c1 s k)).
Proof.
  intros Hs Hdom Hn.
  pose proof (Qfloor_le (lo / s)) as Hfl.
  pose proof (Qlt_floor (lo / s)) as Hfu.
  rewrite inject_Z_plus in Hfu. change (inject_Z 1) with 1 in Hfu.
  assert (Hd : lo / s * s == lo) by (field; lra).
  set (j0 := Qfloor (lo / s)) in *.
  assert (Hc0 : inject_Z j0 * s <= lo /\ lo < inject_Z j0 * s + s).
  { set (d := lo / s) in *. clearbody d j0. nra. }
  set (c0 := inject_Z j0 * s) in *.
  destruct (Qlt_le_dec c0 lo) as [Hskip|Hkeep].
  - (* the floored minimum is below the domain: one cursor is skipped *)
    exists (c0 + s), (Z.to_nat (Qfloor ((hi - (c0 + s)) / s) + 1)).
    destruct (ticks_upto hi (c0 + s) s Hs) as [Hend Hlast].
    set (k := Z.to_nat (Qfloor ((hi - (c0 + s)) / s) + 1)) in *.
    split; [lra|]. split.
    { exists (j0 + 1)%Z. rewrite inject_Z_plus. unfold c0.
      change (inject_Z 1) with 1. ring. }
    split; [exact Hend|]. split; [exact Hlast|].
    intros Hroom. simpl.
    assert (E1 : (Fin c0 <=? Fin hi)%num = true) by (apply num_le_Fin; lra).
    assert (E2 : (nNat 0 <? nZ n * nZ 2)%num = true).
    { apply num_lt_Fin. rewrite <- inject_Z_mult, <- Zlt_Qlt. lia. }
    assert (E3 : (Fin c0 >=? Fin lo)%num = false).
    { unfold num_ge. by apply num_le_Fin_false. }
    rewrite E1, E2, E3. simpl.
    change (Fin c0 + Fin s)%num with (Fin (c0 + s)).
    rewrite (tickLoop_pushes lo hi s n k Hs k (c0 + s) []);
      [reflexivity | lia | lra | simpl; lia | exact Hend | exact Hlast].
  - exists c0, (Z.to_nat (Qfloor ((hi - c0) / s) + 1)).
    destruct (ticks_upto hi c0 s Hs) as [Hend Hlast].
    set (k := Z.to_nat (Qfloor ((hi - c0) / s) + 1)) in *.
    split; [lra|]. split; [by exists j0|].
    split; [exact Hend|]. split; [exact Hlast|].
    intros Hroom.
    rewrite (tickLoop_pushes lo hi s n k Hs (S k) c0 []);
      [reflexivity | lia | lra | simpl; lia | exact Hend | exact Hlast].
Qed.

(** The result of the generator on a proper domain, for at least two
    ticks. *)
Lemma calculateYAxisTicks_closed (lo hi : Q) (n : Z) (dataMax : num) :
  lo < hi -> (2 <= n)%Z ->
  exists (s c1 : Q) (k : nat),
    getNiceStepSize (Fin hi - Fin lo)%num (nZ n - nZ 1)%num = Fin s /\
    0 < s /\
    lo <= c1 < lo + s /\
    (exists j : Z, c1 == inject_Z j * s) /\
    hi < c1 + inject_Z (Z.of_nat k) * s /\
    ((0 < k)%nat -> c1 + (inject_Z (Z.of_nat k) - 1) * s <= hi) /\
    (Z.of_nat k <= n)%Z /\
    forall (fuel : nat) (ticks : list num),
      calculateYAxisTicks fuel (Fin lo, Fin hi) (nZ n) dataMax = Some ticks ->
      ticks = addExtraTick (stepsFrom c1 s k) dataMax (Fin s).
Proof.
  intros Hdom Hn.
  assert (Hwalk : (nZ n <=? nZ 1)%num = false) by (apply nZ_le_false; lia).
  assert (Ht : 1 <= inject_Z n + - inject_Z 1).
  { rewrite <- inject_Z_opp, <- inject_Z_plus.
    change 1 with (inject_Z 1) at 1. rewrite <- Zle_Qle. lia. }
  change (Fin hi - Fin lo)%num with (Fin (hi + - lo)).
  change (nZ n - nZ 1)%num with (Fin (inject_Z n + - inject_Z 1)).
  destruct (getNiceStepSize_pos (hi + - lo) (inject_Z n + - inject_Z 1))
    as (s & Es & Hs & Hb1 & _); [lra | lra |].
  destruct (walk_closed_form lo hi s n Hs) as (c1 & k & Hc1 & Hj & Hend & Hlast & Hrun);
    [lra | lia |].
  assert (Hk : (Z.of_nat k <= n)%Z).
  { destruct k as [|k]; [lia|].
    specialize (Hlast ltac:(lia)).
    pose proof (inject_nat_succ k) as HS.
    assert (Hfit : hi + - lo <= (inject_Z n + - inject_Z 1) * s).
    { set (t := inject_Z n + - inject_Z 1) in *.
      assert (Hd : (hi + - lo) / t * t == hi + - lo) by (field; lra).
      set (raw := (hi + - lo) / t) in *. clearbody raw t. nra. }
    assert (Hcmp : inject_Z (Z.of_nat k) <= inject_Z n + - inject_Z 1).
    { set (K := inject_Z (Z.of_nat (S k))) in *.
      set (K' := inject_Z (Z.of_nat k)) in *.
      set (t := inject_Z n + - inject_Z 1) in *. clearbody K K' t. nra. }
    rewrite <- inject_Z_opp, <- inject_Z_plus, <- Zle_Qle in Hcmp. lia. }
  exists s, c1, k. split; [exact Es|]. split; [exact Hs|].
  split; [exact Hc1|]. split; [exact Hj|]. split; [exact Hend|].
  split; [exact Hlast|]. split; [exact Hk|].
  intros fuel ticks Hres. unfold calculateYAxisTicks in Hres.
  rewrite calculateYAxisTicks_walk in Hres by exact Hwalk.
  change (Fin hi - Fin lo)%num with (Fin (hi + - lo)) in Hres.
  change (nZ n - nZ 1)%num with (Fin (inject_Z n + - inject_Z 1)) in Hres.
  rewrite Es in Hres. cbv zeta in Hres. rewrite num_div_Fin in Hres by lra.
  change (Math_floor (Fin (lo / s)) * Fin s)%num
    with (Fin (inject_Z (Qfloor (lo / s)) * s)) in Hres.
  destruct (tickLoop fuel _ _ _ _ _ _) as [w|] eqn:Ew; [|discriminate].
  simpl in Hres. injection Hres as <-.
  specialize (Hrun ltac:(lia)).
  by rewrite (tickLoop_deterministic _ _ _ _ _ _ _ _ _ _ Ew Hrun).
Qed.

End ClosedForm.

(** ** The ticks returned by the generator *)

Lemma calculateYAxisTicks_degenerate (lo hi : Q) (n : Z) (dataMax : num)
    (fuel : nat) (ticks : list num) :
  (lo == hi)%Q -> (2 <= n)%Z ->
  calculateYAxisTicks fuel (Fin lo, Fin hi) (nZ n) dataMax = Some ticks ->
  ticks = [].
Proof.
  intros Heq Hn Hres.
  assert (Hwalk : (nZ n <=? nZ 1)%num = false) by (apply nZ_le_false; lia).
  unfold calculateYAxisTicks in Hres.
  rewrite calculateYAxisTicks_walk in Hres by exact Hwalk.
  change (Fin hi - Fin lo)%num with (Fin (hi + - lo)) in Hres.
  change (nZ n - nZ 1)%num with (Fin (inject_Z n + - inject_Z 1)) in Hres.
  destruct (getNiceStepSize_zero_range (hi + - lo) (inject_Z n + - inject_Z 1))
    as (s & Es & Hs).
  - lra.
  - rewrite <- inject_Z_opp, <- inject_Z_plus.
    change 0%Q with (inject_Z 0). rewrite <- Zlt_Qlt. lia.
  - rewrite Es in Hres. cbv zeta in Hres.
    rewrite niceMin_zero_step in Hres by exact Hs.
    rewrite tickLoop_NaN in Hres. simpl in Hres.
    rewrite addExtraTick_nil in Hres. congruence.
Qed.

Lemma calculateYAxisTicks_small (min max dataMax : num) (n : Z) (fuel : nat)
    (ticks : list num) :
  (n <= 1)%Z ->
  calculateYAxisTicks fuel (min, max) (nZ n) dataMax = Some ticks ->
  ticks = [min].
Proof.
  intros Hn Hres. unfold calculateYAxisTicks in Hres.
  rewrite calculateYAxisTicks_single in Hres by (by apply nZ_le). congruence.
Qed.

Lemma addExtraTick_elem (l : list num) (dataMax step x : num) :
  x ∈ addExtraTick l dataMax step ->
  x ∈ l \/
  (x = (lastTickOf l + step)%num /\
   addExtraTick l dataMax step = l ++ [x] /\
   extraTickCond dataMax (lastTickOf l) step = true).
Proof.
  unfold addExtraTick. destruct (extraTickCond _ _ _); [|by left].
  intros [H|H]%elem_of_app; [by left|].
  apply list_elem_of_singleton in H as ->. by right.
Qed.

Lemma addExtraTick_spaced (l : list num) (dataMax step : num) :
  evenlySpaced step l -> evenlySpaced step (addExtraTick l dataMax step).
Proof.
  intros Hl. unfold addExtraTick. destruct (extraTickCond _ _ _); [|exact Hl].
  intros i a b Ha Hb.
  apply lookup_snoc_Some in Hb as [[Hi Hb]|[Hi Hb]].
  - apply (Hl i a b); [|exact Hb].
    rewrite lookup_app_l in Ha by lia. exact Ha.
  - rewrite lookup_app_l in Ha by lia.
    subst b. f_equal. unfold lastTickOf.
    rewrite last_lookup, <- Hi. simpl. by rewrite Ha.
Qed.





Lemma multiple_lt_inv (a b : Z) (s : Q) :
  (0 < s)%Q -> (inject_Z a * s < inject_Z b * s)%Q -> (a < b)%Z.
Proof. intros Hs H. apply Qmult_lt_r in H; [|exact Hs]. by rewrite Zlt_Qlt. Qed.



(** X9.  Only the appended extra tick can exceed the domain: every
    returned tick is at most [max], except that the last one may be the extra
    tick, which then lies strictly above both [max] and the data maximum. *)
Theorem calculateYAxisTicks_extra_above (lo hi : Q) (n : Z) (dataMax : num)
    (fuel : nat) (ticks : list num) :
  (lo < hi)%Q -> (2 <= n)%Z ->
  calculateYAxisTicks fuel (Fin lo, Fin hi) (nZ n) dataMax = Some ticks ->
  forall t, t ∈ ticks ->
    (t <=? Fin hi)%num = true \/
    (last ticks = Some t /\ (Fin hi <? t)%num = true /\
     (dataMax <? t)%num = true).
Proof.
  intros Hdom Hn Hres t Ht.
  destruct (calculateYAxisTicks_closed lo hi n dataMax Hdom Hn)
    as (s & c1 & k & Es & Hs & Hc1 & _ & Hend & Hlast & Hk & Hform).
  rewrite (Hform _ _ Hres) in *. clear Hform Hres.
  apply addExtraTick_elem in Ht as [Ht|(-> & -> & Hcond)].
  - left. apply stepsFrom_elem in Ht as (i & q & Hi & -> & Hq).
    apply num_le_Fin. specialize (Hlast ltac:(lia)).
    assert (Hik : (inject_Z (Z.of_nat i) <= inject_Z (Z.of_nat k) - 1)%Q).
    { change 1%Q with (inject_Z 1). unfold Qminus.
      rewrite <- inject_Z_opp, <- inject_Z_plus, <- Zle_Qle. lia. }
    rewrite Hq.
    set (I := inject_Z (Z.of_nat i)) in *.
    set (K := inject_Z (Z.of_nat k)) in *. clearbody I K. nra.
  - right. split; [apply last_snoc|].
    destruct k as [|k].
    { simpl in Hcond. change (lastTickOf []) with NaN in Hcond.
      by rewrite extraTickCond_NaN in Hcond. }
    destruct (stepsFrom_last s k c1) as (q & El & Hq).
    unfold lastTickOf in *. rewrite El in *.
    change (Fin q + Fin s)%num with (Fin (q + s)).
    pose proof (inject_nat_succ k) as HS.
    split.
    + apply num_lt_Fin.
      set (K := inject_Z (Z.of_nat (S k))) in *.
      set (K' := inject_Z (Z.of_nat k)) in *. clearbody K K'. nra.
    + destruct dataMax as [d| | |]; try discriminate.
      apply extraTickCond_finite in Hcond. apply num_lt_Fin. lra.
Qed.

Lemma calculateYAxisTicks_extra_above_witness :
  (0 < 100)%Q /\ (2 <= 6)%Z /\
  calculateYAxisTicks 6 (Fin 0, Fin 100) (nZ 6) (nZ 101)
  = Some [nZ 0; nZ 20; nZ 40; nZ 60; nZ 80; nZ 100; nZ 120] /\
  (nZ 120 <=? Fin 100)%num = false /\
  ((nZ 120 <=? Fin 100)%num = true \/
   (last [nZ 0; nZ 20; nZ 40; nZ 60; nZ 80; nZ 100; nZ 120] = Some (nZ 120) /\
    (Fin 100 <? nZ 120)%num = true /\ (nZ 101 <? nZ 120)%num = true)).
Proof.
  assert (H : calculateYAxisTicks 6 (Fin 0, Fin 100) (nZ 6) (nZ 101)
              = Some [nZ 0; nZ 20; nZ 40; nZ 60; nZ 80; nZ 100; nZ 120]).
  { vm_compute. reflexivity. }
  split; [reflexivity|]. split; [lia|]. split; [exact H|].
  split; [reflexivity|].
  apply (calculateYAxisTicks_extra_above 0 100 6 (nZ 101) 6 _
           ltac:(reflexivity) ltac:(lia) H).
  do 6 apply list_elem_of_further. apply list_elem_of_here.
Defined.

(** ** The rounded domain *)

Section NiceDomain.

Local Open Scope Q_scope.

Lemma getRoundingFactor_tier (q : Q) :
  exists f : Z, getRoundingFactor (Fin q) = nZ f /\ roundingTier f q.
Proof.
  unfold getRoundingFactor, roundingTier.
  destruct (Fin q <=? nZ 100)%num eqn:E1;
    [apply num_le_Fin in E1 | apply num_le_Fin_false in E1];
    change (inject_Z 100) with 100 in E1.
  { exists 10%Z. split; [reflexivity | tauto]. }
  destruct (Fin q <=? nZ 1000)%num eqn:E2;
    [apply num_le_Fin in E2 | apply num_le_Fin_false in E2];
    change (inject_Z 1000) with 1000 in E2.
  { exists 100%Z. split; [reflexivity | tauto]. }
  destruct (Fin q <=? nZ 10000)%num eqn:E3;
    [apply num_le_Fin in E3 | apply num_le_Fin_false in E3];
    change (inject_Z 10000) with 10000 in E3.
  { exists 500%Z. split; [reflexivity | tauto]. }
  destruct (Fin q <=? nZ 50000)%num eqn:E4;
    [apply num_le_Fin in E4 | apply num_le_Fin_false in E4];
    change (inject_Z 50000) with 50000 in E4.
  { exists 1000%Z. split; [reflexivity | tauto]. }
  exists 5000%Z. split; [reflexivity | tauto].
Qed.

Lemma roundingTier_pos (f : Z) (q : Q) : roundingTier f q -> 0 < inject_Z f.
Proof.
  intros [[-> _]|[[-> _]|[[-> _]|[[-> _]|[-> _]]]]]; reflexivity.
Qed.

Lemma roundingTier_tens (f : Z) (q : Q) :
  roundingTier f q -> exists g : Z, (0 < g)%Z /\ f = (10 * g)%Z.
Proof.
  intros [[-> _]|[[-> _]|[[-> _]|[[-> _]|[-> _]]]]];
    [exists 1%Z | exists 10%Z | exists 50%Z | exists 100%Z | exists 500%Z];
    split; reflexivity.
Qed.

(** The rounding step, with the factors it uses. *)
Lemma roundDomain_form (a b : Q) :
  exists fa fb : Z,
    roundingTier fa a /\ roundingTier fb b /\
    roundDomain (Fin a, Fin b)
    = (Fin (inject_Z (Qfloor (a / inject_Z fa)) * inject_Z fa),
       Fin (inject_Z (Qceiling (b / inject_Z fb)) * inject_Z fb)).
Proof.
  destruct (getRoundingFactor_tier a) as (fa & Ea & Ha).
  destruct (getRoundingFactor_tier b) as (fb & Eb & Hb).
  exists fa, fb. split; [exact Ha|]. split; [exact Hb|].
  pose proof (roundingTier_pos _ _ Ha). pose proof (roundingTier_pos _ _ Hb).
  unfold roundDomain. rewrite Ea, Eb. unfold nZ.
  rewrite !num_div_Fin by lra. reflexivity.
Qed.

(** The padding step on finite numbers. *)
Lemma padDomain_form (lo hi p : Q) :
  exists a b : Q,
    padDomain (Fin lo) (Fin hi) (Fin p) = (Fin a, Fin b) /\
    b == hi + (hi - lo) * p /\
    0 <= a /\ lo - (hi - lo) * p <= a /\
    (a == 0 \/ a == lo - (hi - lo) * p).
Proof.
  unfold padDomain.
  change (Fin hi - Fin lo)%num with (Fin (hi + - lo)).
  change (Fin (hi + - lo) * Fin p)%num with (Fin ((hi + - lo) * p)).
  change (Fin lo - Fin ((hi + - lo) * p))%num
    with (Fin (lo + - ((hi + - lo) * p))).
  change (Fin hi + Fin ((hi + - lo) * p))%num
    with (Fin (hi + (hi + - lo) * p)).
  unfold Math_max, nZ.
  destruct (Fin (inject_Z 0) <=? Fin (lo + - ((hi + - lo) * p)))%num eqn:E;
    [apply num_le_Fin in E | apply num_le_Fin_false in E];
    change (inject_Z 0) with 0 in *;
    eexists _, _; (split; [reflexivity|]);
    set (r := (hi + - lo) * p) in *;
    assert (Hr : (hi - lo) * p == r) by (unfold r; ring);
    rewrite Hr; clearbody r;
    (split; [lra|]); (split; [lra|]); (split; [lra|]).
  - right. lra.
  - left. lra.
Qed.

(** The domain computed from a finite non-empty scan. *)
Lemma calculateNiceYDomain_finite (data : list item) (dataKeys : list string)
    (padding : option num) (p : Q) :
  default (Fin (1 # 10)) padding = Fin p ->
  Forall finite (scannedValues data dataKeys) ->
  scannedValues data dataKeys <> [] ->
  exists lo hi a b : Q,
    scanRange data dataKeys = (Fin lo, Fin hi) /\
    Fin lo ∈ scannedValues data dataKeys /\
    Fin hi ∈ scannedValues data dataKeys /\
    Forall (fun v => exists q, v = Fin q /\ lo <= q <= hi)
           (scannedValues data dataKeys) /\
    padDomain (Fin lo) (Fin hi) (Fin p) = (Fin a, Fin b) /\
    calculateNiceYDomain data dataKeys padding = roundDomain (Fin a, Fin b).
Proof.
  intros Hpad Hfin Hne. unfold calculateNiceYDomain.
  rewrite Hpad, scanRange_scannedValues.
  destruct (scan_finite _ Hfin) as [[E _] | (lo & hi & -> & Hlo & Hhi & Hall)];
    [contradiction|].
  change (noValueScanned (Fin lo, Fin hi)) with false. cbv iota. cbn [fst snd].
  destruct (padDomain_form lo hi p) as (a & b & E & _).
  exists lo, hi, a, b. rewrite E. repeat split; assumption.
Qed.

End NiceDomain.





(** ** Rounding is monotone *)

Section RoundingMonotone.

Local Open Scope Q_scope.

Lemma floor_mult_le (a F : Q) : 0 < F -> inject_Z (Qfloor (a / F)) * F <= a.
Proof.
  intros HF. pose proof (Qfloor_le (a / F)) as H.
  assert (Hd : a / F * F == a) by (field; lra).
  set (x := a / F) in *. set (m := inject_Z (Qfloor x)) in *.
  clearbody x m. nra.
Qed.

Lemma ceiling_mult_ge (b F : Q) : 0 < F -> b <= inject_Z (Qceiling (b / F)) * F.
Proof.
  intros HF. pose proof (Qle_ceiling (b / F)) as H.
  assert (Hd : b / F * F == b) by (field; lra).
  set (x := b / F) in *. set (m := inject_Z (Qceiling x)) in *.
  clearbody x m. nra.
Qed.

Lemma div_le_mono (a1 a2 F : Q) : 0 < F -> a1 <= a2 -> a1 / F <= a2 / F.
Proof.
  intros HF H. apply Qle_shift_div_l; [exact HF|].
  assert (Hd : a1 / F * F == a1) by (field; lra). lra.
Qed.

Lemma floor_mult_mono (a1 a2 F : Q) :
  0 < F -> a1 <= a2 ->
  inject_Z (Qfloor (a1 / F)) * F <= inject_Z (Qfloor (a2 / F)) * F.
Proof.
  intros HF H. apply Qmult_le_compat_r; [|lra].
  rewrite <- Zle_Qle. apply Qfloor_resp_le. by apply div_le_mono.
Qed.

Lemma ceiling_mult_mono (b1 b2 F : Q) :
  0 < F -> b1 <= b2 ->
  inject_Z (Qceiling (b1 / F)) * F <= inject_Z (Qceiling (b2 / F)) * F.
Proof.
  intros HF H. apply Qmult_le_compat_r; [|lra].
  rewrite <- Zle_Qle. apply Qceiling_resp_le. by apply div_le_mono.
Qed.

(** A multiple of the factor below [a] stays below the rounded-down
    value; one above [b] stays above the rounded-up value. *)
Lemma floor_mult_ge (a F L : Q) (c : Z) :
  0 < F -> L == inject_Z c * F -> L <= a ->
  L <= inject_Z (Qfloor (a / F)) * F.
Proof.
  intros HF HL H. rewrite HL. apply Qmult_le_compat_r; [|lra].
  rewrite <- Zle_Qle, <- (Qfloor_Z c). apply Qfloor_resp_le.
  apply Qle_shift_div_l; [exact HF | lra].
Qed.

Lemma ceiling_mult_le (b F U : Q) (c : Z) :
  0 < F -> U == inject_Z c * F -> b <= U ->
  inject_Z (Qceiling (b / F)) * F <= U.
Proof.
  intros HF HU H. rewrite HU. apply Qmult_le_compat_r; [|lra].
  rewrite <- Zle_Qle, <- (Qceiling_Z c). apply Qceiling_resp_le.
  apply Qle_shift_div_r; [exact HF | lra].
Qed.

(** The rounded-down value is at least the lower end of its tier. *)
Lemma roundDown_tier (a : Q) (f : Z) :
  roundingTier f a ->
  let D := inject_Z (Qfloor (a / inject_Z f)) * inject_Z f in
  D <= a /\
  (f = 100%Z -> 100 <= D) /\ (f = 500%Z -> 1000 <= D) /\
  (f = 1000%Z -> 10000 <= D) /\ (f = 5000%Z -> 50000 <= D).
Proof.
  intros T D. split.
  { apply floor_mult_le. by apply (roundingTier_pos f a). }
  destruct T as [[-> H]|[[-> H]|[[-> H]|[[-> H]|[-> H]]]]];
    repeat split; intros E; try discriminate E; clear E; unfold D.
  - apply (floor_mult_ge a _ 100 1); [reflexivity | reflexivity | lra].
  - apply (floor_mult_ge a _ 1000 2); [reflexivity | reflexivity | lra].
  - apply (floor_mult_ge a _ 10000 10); [reflexivity | reflexivity | lra].
  - apply (floor_mult_ge a _ 50000 10); [reflexivity | reflexivity | lra].
Qed.

(** The rounded-up value is at most the upper end of its tier. *)
Lemma roundUp_tier (b : Q) (f : Z) :
  roundingTier f b ->
  let C := inject_Z (Qceiling (b / inject_Z f)) * inject_Z f in
  b <= C /\
  (f = 10%Z -> C <= 100) /\ (f = 100%Z -> C <= 1000) /\
  (f = 500%Z -> C <= 10000) /\ (f = 1000%Z -> C <= 50000).
Proof.
  intros T C. split.
  { apply ceiling_mult_ge. by apply (roundingTier_pos f b). }
  destruct T as [[-> H]|[[-> H]|[[-> H]|[[-> H]|[-> H]]]]];
    repeat split; intros E; try discriminate E; clear E; unfold C.
  - apply (ceiling_mult_le b _ 100 10); [reflexivity | reflexivity | lra].
  - apply (ceiling_mult_le b _ 1000 10); [reflexivity | reflexivity | lra].
  - apply (ceiling_mult_le b _ 10000 20); [reflexivity | reflexivity | lra].
  - apply (ceiling_mult_le b _ 50000 50); [reflexivity | reflexivity | lra].
Qed.

Ltac use_tier_bounds :=
  repeat match goal with
         | H : ?x = ?x -> _ |- _ => specialize (H eq_refl)
         | H : ?x = ?y -> _ |- _ => clear H
         end.

Lemma roundDown_mono (a1 a2 : Q) (f1 f2 : Z) :
  roundingTier f1 a1 -> roundingTier f2 a2 -> a1 <= a2 ->
  inject_Z (Qfloor (a1 / inject_Z f1)) * inject_Z f1
  <= inject_Z (Qfloor (a2 / inject_Z f2)) * inject_Z f2.
Proof.
  intros T1 T2 Hle.
  destruct (roundDown_tier a1 f1 T1) as (H1 & _).
  destruct (roundDown_tier a2 f2 T2) as (_ & L100 & L500 & L1000 & L5000).
  destruct (Z.eq_dec f1 f2) as [->|Hne].
  { apply floor_mult_mono; [by apply (roundingTier_pos f2 a2) | exact Hle]. }
  set (D1 := inject_Z (Qfloor (a1 / inject_Z f1)) * inject_Z f1) in *.
  set (D2 := inject_Z (Qfloor (a2 / inject_Z f2)) * inject_Z f2) in *.
  clearbody D1 D2.
  destruct T1 as [[-> U1]|[[-> U1]|[[-> U1]|[[-> U1]|[-> U1]]]]];
  destruct T2 as [[-> U2]|[[-> U2]|[[-> U2]|[[-> U2]|[-> U2]]]]];
    try congruence; use_tier_bounds; lra.
Qed.

Lemma roundUp_mono (b1 b2 : Q) (f1 f2 : Z) :
  roundingTier f1 b1 -> roundingTier f2 b2 -> b1 <= b2 ->
  inject_Z (Qceiling (b1 / inject_Z f1)) * inject_Z f1
  <= inject_Z (Qceiling (b2 / inject_Z f2)) * inject_Z f2.
Proof.
  intros T1 T2 Hle.
  destruct (roundUp_tier b1 f1 T1) as (_ & U10 & U100 & U500 & U1000).
  destruct (roundUp_tier b2 f2 T2) as (H2 & _).
  destruct (Z.eq_dec f1 f2) as [->|Hne].
  { apply ceiling_mult_mono; [by apply (roundingTier_pos f2 b2) | exact Hle]. }
  set (C1 := inject_Z (Qceiling (b1 / inject_Z f1)) * inject_Z f1) in *.
  set (C2 := inject_Z (Qceiling (b2 / inject_Z f2)) * inject_Z f2) in *.
  clearbody C1 C2.
  destruct T1 as [[-> V1]|[[-> V1]|[[-> V1]|[[-> V1]|[-> V1]]]]];
  destruct T2 as [[-> V2]|[[-> V2]|[[-> V2]|[[-> V2]|[-> V2]]]]];
    try congruence; use_tier_bounds; lra.
Qed.

End RoundingMonotone.

Lemma scannedValues_app (data more : list item) (dataKeys : list string) :
  scannedValues (data ++ more) dataKeys
  = scannedValues data dataKeys ++ scannedValues more dataKeys.
Proof. unfold scannedValues. apply flat_map_app. Qed.

(** X12.  Adding rows never shrinks the domain: for finite scanned values
    and a finite padding [>= 0], the domain computed for [data ++ more] has a
    lower bound at most, and an upper bound at least, those computed for
    [data]. *)
Theorem calculateNiceYDomain_grows (data more : list item)
    (dataKeys : list string) (padding : option num) (p : Q) :
  default (Fin (1 # 10)) padding = Fin p -> (0 <= p)%Q ->
  Forall finite (scannedValues (data ++ more) dataKeys) ->
  scannedValues data dataKeys <> [] ->
  exists lo hi lo' hi' : Q,
    calculateNiceYDomain data dataKeys padding = (Fin lo, Fin hi) /\
    calculateNiceYDomain (data ++ more) dataKeys padding = (Fin lo', Fin hi') /\
    (lo' <= lo)%Q /\ (hi <= hi')%Q.
Proof.
  intros Hpad Hp Hfin Hne.
  pose proof (scannedValues_app data more dataKeys) as Happ.
  assert (Hfin1 : Forall finite (scannedValues data dataKeys)).
  { rewrite Happ in Hfin. by apply Forall_app in Hfin as [? _]. }
  assert (Hne' : scannedValues (data ++ more) dataKeys <> []).
  { rewrite Happ. intros E. apply app_eq_nil in E as [E _]. contradiction. }
  destruct (calculateNiceYDomain_finite data dataKeys padding p Hpad Hfin1 Hne)
    as (l1 & h1 & a1 & b1 & _ & Hl1 & Hh1 & Hb1 & Ep1 & ->).
  destruct (calculateNiceYDomain_finite (data ++ more) dataKeys padding p
              Hpad Hfin Hne')
    as (l2 & h2 & a2 & b2 & _ & Hl2 & Hh2 & Hb2 & Ep2 & ->).
  rewrite Forall_forall in Hb1, Hb2.
  assert (Hsub : forall v, v ∈ scannedValues data dataKeys ->
            v ∈ scannedValues (data ++ more) dataKeys).
  { intros v Hv. rewrite Happ. apply elem_of_app. by left. }
  destruct (Hb1 _ Hl1) as (x1 & [= <-] & Hx1).
  destruct (Hb2 _ (Hsub _ Hl1)) as (x2 & [= <-] & Hx2).
  destruct (Hb2 _ (Hsub _ Hh1)) as (x3 & [= <-] & Hx3).
  destruct (Hb2 _ Hl2) as (x4 & [= <-] & Hx4).
  destruct (padDomain_form l1 h1 p) as (a1' & b1' & E1 & Hbb1 & Ha10 & Ha1 & _).
  rewrite Ep1 in E1. injection E1 as <- <-.
  destruct (padDomain_form l2 h2 p) as (a2' & b2' & E2 & Hbb2 & _ & _ & Ha2).
  rewrite Ep2 in E2. injection E2 as <- <-.
  assert (Ha : (a2 <= a1)%Q) by (destruct Ha2 as [Hz|Hz]; nra).
  assert (Hb : (b1 <= b2)%Q) by nra.
  destruct (roundDomain_form a1 b1) as (fa1 & fb1 & Ta1 & Tb1 & ->).
  destruct (roundDomain_form a2 b2) as (fa2 & fb2 & Ta2 & Tb2 & ->).
  eexists _, _, _, _. split; [reflexivity|]. split; [reflexivity|]. split.
  - by apply roundDown_mono.
  - by apply roundUp_mono.
Qed.

Lemma calculateNiceYDomain_grows_witness :
  let data : list item := [ {[ "a"%string := VNum (nZ 100) ]} ] in
  let more : list item := [ {[ "a"%string := VNum (nZ 1200) ]} ] in
  default (Fin (1 # 10)) None = Fin (1 # 10) /\ (0 <= 1 # 10)%Q /\
  Forall finite (scannedValues (data ++ more) [ "a"%string ]) /\
  scannedValues data [ "a"%string ] <> [] /\
  exists lo hi lo' hi' : Q,
    calculateNiceYDomain data [ "a"%string ] None = (Fin lo, Fin hi) /\
    calculateNiceYDomain (data ++ more) [ "a"%string ] None
    = (Fin lo', Fin hi') /\
    (lo' <= lo)%Q /\ (hi <= hi')%Q.
Proof.
  intros data more.
  assert (Hfin : Forall finite (scannedValues (data ++ more) [ "a"%string ])).
  { vm_compute. repeat constructor. }
  assert (Hne : scannedValues data [ "a"%string ] <> []).
  { vm_compute. discriminate. }
  split; [reflexivity|]. split; [discriminate|].
  split; [exact Hfin|]. split; [exact Hne|].
  apply (calculateNiceYDomain_grows data more [ "a"%string ] None (1 # 10));
    [reflexivity | discriminate | exact Hfin | exact Hne].
Defined.

(** ** The two memos of the line chart together *)

Lemma scan_snd_max (vs : list num) : forall mm : num * num,
  snd (foldl scanStep mm vs) = foldl Math_max (snd mm) vs.
Proof.
  induction vs as [|v vs IH]; intros mm; [reflexivity|].
  simpl. by rewrite IH.
Qed.



(** X14.  When nothing is scanned (no data row, or no line: an empty
    [lines] array is kept as it is, whatever [chartConfig] holds), the
    automatic domain is [[0, 100]] and, for the default tick count, the ticks
    are 0, 20, 40, 60, 80, 100. *)
Theorem yAxisTicks_nothing_scanned (data : list item)
    (lines : option (list LineSpec)) (chartConfigKeys : list string)
    (yAxisConfig : option YAxisConfig) (fuel : nat) :
  data = [] \/ lines = Some [] ->
  (forall d, yAxisConfig ≫= domain <> Some (DomainFixed d)) ->
  yAxisConfig ≫= tickCount = None ->
  (6 <= fuel)%nat ->
  yDomain data (chartLines lines chartConfigKeys) yAxisConfig = (nZ 0, nZ 100) /\
  yAxisTicks fuel data (chartLines lines chartConfigKeys) yAxisConfig
  = Some [nZ 0; nZ 20; nZ 40; nZ 60; nZ 80; nZ 100].
Proof.
  intros Hnone Hdom Htc Hfuel.
  set (cl := chartLines lines chartConfigKeys).
  assert (Hscan : scannedValues data (map dataKey cl) = []).
  { apply scannedValues_nil. destruct Hnone as [->| ->]; [by left | by right]. }
  assert (Ey : yDomain data cl yAxisConfig = (nZ 0, nZ 100)).
  { unfold yDomain.
    assert (E : forall pad, calculateNiceYDomain data (map dataKey cl) pad
                            = (nZ 0, nZ 100)).
    { intros pad. unfold calculateNiceYDomain.
      by rewrite scanRange_scannedValues, Hscan. }
    destruct (yAxisConfig ≫= domain) as [[|d]|] eqn:Ed; try apply E.
    by destruct (Hdom d). }
  split; [exact Ey|].
  unfold yAxisTicks, resolveTickCount. rewrite Ey, Hscan, Htc.
  change (opt_or None (nZ 6)) with (nZ 6).
  change (Math_max_list []) with NInf.
  assert (H6 : calculateYAxisTicks 6 (nZ 0, nZ 100) (nZ 6) NInf
               = Some [nZ 0; nZ 20; nZ 40; nZ 60; nZ 80; nZ 100]).
  { vm_compute. reflexivity. }
  unfold calculateYAxisTicks in *.
  rewrite calculateYAxisTicks_walk in * by reflexivity.
  cbv zeta in *.
  destruct (tickLoop 6 _ _ _ _ _ _) as [w|] eqn:Ew; [|discriminate].
  by rewrite (tickLoop_mono _ _ _ _ _ _ _ _ _ Hfuel Ew).
Qed.

Lemma yAxisTicks_nothing_scanned_witness :
  let data : list item := [ {[ "a"%string := VNum (nZ 7) ]} ] in
  (data = [] \/ Some ([] : list LineSpec) = Some []) /\ (6 <= 6)%nat /\
  yDomain data (chartLines (Some []) [ "a"%string ]) None = (nZ 0, nZ 100) /\
  yAxisTicks 6 data (chartLines (Some []) [ "a"%string ]) None
  = Some [nZ 0; nZ 20; nZ 40; nZ 60; nZ 80; nZ 100].
Proof.
  intros data. split; [by right|]. split; [lia|].
  apply (yAxisTicks_nothing_scanned data (Some []) [ "a"%string ] None 6);
    [by right | discriminate | reflexivity | lia].
Defined.

(** ** More on the percentage normalizer *)

Section Percentages.

Variable StringToNumber : string -> num.

Abbreviation numericValue := (AreaChart.numericValue StringToNumber).
Abbreviation rowTotal := (AreaChart.rowTotal StringToNumber).
Abbreviation normalizeItem := (AreaChart.normalizeItem StringToNumber).
Abbreviation normalizedData := (AreaChart.normalizedData StringToNumber).

Lemma normalizedData_lookup (data : list item)
    (chartAreas : list AreaChart.AreaConfig) (i : nat) (it : item) :
  data !! i = Some it ->
  normalizedData AreaChart.StackedExpanded data chartAreas !! i
  = Some (normalizeItem (map AreaChart.dataKey chartAreas) it).
Proof.
  intros Hi. unfold AreaChart.normalizedData.
  change (map (normalizeItem (map AreaChart.dataKey chartAreas)) data)
    with (normalizeItem (map AreaChart.dataKey chartAreas) <$> data).
  by rewrite list_lookup_fmap, Hi.
Qed.

Lemma rowTotal_pos (dataKeys : list string) (it : item) (q : Q) :
  rowTotal dataKeys it = Fin q -> (0 < q)%Q ->
  (rowTotal dataKeys it >? nZ 0)%num = true.
Proof. intros -> Hq. unfold num_gt, nZ. by apply num_lt_Fin. Qed.

Lemma Qsum_ge (g : string -> Q) (keys : list string) :
  (forall k, k ∈ keys -> (0 <= g k)%Q) ->
  (0 <= Qsum g keys)%Q /\ forall k, k ∈ keys -> (g k <= Qsum g keys)%Q.
Proof.
  induction keys as [|x keys IH]; intros Hg.
  - split; [simpl; lra|]. intros k Hk. by apply not_elem_of_nil in Hk.
  - destruct IH as [H0 Hle]; [intros k Hk; apply Hg; by right|].
    pose proof (Hg x ltac:(by left)) as Hx. simpl. split; [lra|].
    intros k [->|Hk]%elem_of_cons; [lra|]. specialize (Hle k Hk). lra.
Qed.

Lemma Qsum_scale_l (g : string -> Q) (c : Q) (keys : list string) :
  (Qsum (fun k => c * g k) keys == c * Qsum g keys)%Q.
Proof.
  induction keys as [|k ks IH]; simpl; [ring | rewrite IH; ring].
Qed.

(** X15.  A row whose total is finite and positive is normalized to a row
    whose values at the keys sum to 100. *)
Theorem normalizedData_sums_to_100 (data : list item)
    (chartAreas : list AreaChart.AreaConfig) (i : nat) (it : item) (q : Q) :
  data !! i = Some it ->
  let dataKeys := map AreaChart.dataKey chartAreas in
  rowTotal dataKeys it = Fin q -> (0 < q)%Q ->
  exists newItem : item,
    normalizedData AreaChart.StackedExpanded data chartAreas !! i
      = Some newItem /\
    rowTotal dataKeys newItem ≡ nZ 100.
Proof.
  intros Hi dataKeys Ht Hq.
  exists (normalizeItem dataKeys it).
  split; [by apply normalizedData_lookup|].
  by destruct (rowTotal_normalized StringToNumber dataKeys it q Ht Hq).
Qed.

(** X16.  When moreover no value at the keys is negative, every normalized
    value lies between 0 and 100. *)
Theorem normalizedData_percentage_range (data : list item)
    (chartAreas : list AreaChart.AreaConfig) (i : nat) (it : item) (q : Q) :
  data !! i = Some it ->
  let dataKeys := map AreaChart.dataKey chartAreas in
  rowTotal dataKeys it = Fin q -> (0 < q)%Q ->
  (forall key, key ∈ dataKeys -> (nZ 0 <=? numericValue it key)%num = true) ->
  exists newItem : item,
    normalizedData AreaChart.StackedExpanded data chartAreas !! i
      = Some newItem /\
    forall key, key ∈ dataKeys ->
      exists b : Q,
        newItem !! key = Some (VNum (Fin b)) /\ (0 <= b <= 100)%Q.
Proof.
  intros Hi dataKeys Ht Hq Hnn.
  exists (normalizeItem dataKeys it).
  split; [by apply normalizedData_lookup|].
  destruct (foldl_add_finite_inv StringToNumber (numericValue it) dataKeys 0 q Ht)
    as [Hfin Hsum].
  assert (Hg : forall k, k ∈ dataKeys -> (0 <= toQ (numericValue it k))%Q).
  { intros k Hk. specialize (Hnn k Hk).
    rewrite (finite_toQ _ (Hfin k Hk)) in Hnn.
    unfold nZ in Hnn. by apply num_le_Fin in Hnn. }
  destruct (Qsum_ge (fun k => toQ (numericValue it k)) dataKeys Hg) as [_ Hle].
  intros key Hin.
  rewrite normalizeItem_lookup by (by apply (rowTotal_pos _ _ q)).
  rewrite decide_True by exact Hin.
  rewrite Ht, (finite_toQ _ (Hfin key Hin)).
  rewrite num_div_Fin by lra.
  set (v := toQ (numericValue it key)).
  change (toQ (Fin v)) with v.
  exists (v / q * 100)%Q. split; [reflexivity|].
  pose proof (Hg key Hin) as Hv0. pose proof (Hle key Hin) as Hvq.
  fold v in Hv0, Hvq. rewrite Qplus_0_l in Hsum. rewrite <- Hsum in Hvq.
  assert (Hd : (v / q * q == v)%Q) by (field; lra).
  set (d := (v / q)%Q) in *. clearbody d v. nra.
Qed.



End Percentages.

Lemma normalizedData_sums_to_100_witness :
  let it : item := {[ "x"%string := VNum (nZ 1); "y"%string := VNum (nZ 3) ]} in
  let areas := [ {| AreaChart.dataKey := "x" |}; {| AreaChart.dataKey := "y" |} ] in
  [it] !! 0%nat = Some it /\
  AreaChart.rowTotal AreaChart.digitsToNumber
    (map AreaChart.dataKey areas) it = Fin 4 /\ (0 < 4)%Q /\
  exists newItem : item,
    AreaChart.normalizedData AreaChart.digitsToNumber
      AreaChart.StackedExpanded [it] areas !! 0%nat = Some newItem /\
    AreaChart.rowTotal AreaChart.digitsToNumber
      (map AreaChart.dataKey areas) newItem ≡ nZ 100.
Proof.
  intros it areas.
  assert (Ht : AreaChart.rowTotal AreaChart.digitsToNumber
                 (map AreaChart.dataKey areas) it = Fin 4).
  { vm_compute. reflexivity. }
  split; [reflexivity|]. split; [exact Ht|]. split; [reflexivity|].
  apply (normalizedData_sums_to_100 AreaChart.digitsToNumber [it] areas 0 it 4);
    [reflexivity | exact Ht | reflexivity].
Defined.

Lemma normalizedData_percentage_range_witness :
  let it : item := {[ "x"%string := VNum (nZ 1); "y"%string := VNum (nZ 3) ]} in
  let areas := [ {| AreaChart.dataKey := "x" |}; {| AreaChart.dataKey := "y" |} ] in
  [it] !! 0%nat = Some it /\
  AreaChart.rowTotal AreaChart.digitsToNumber
    (map AreaChart.dataKey areas) it = Fin 4 /\ (0 < 4)%Q /\
  (forall key, key ∈ map AreaChart.dataKey areas ->
     (nZ 0 <=? AreaChart.numericValue AreaChart.digitsToNumber it key)%num
     = true) /\
  exists newItem : item,
    AreaChart.normalizedData AreaChart.digitsToNumber
      AreaChart.StackedExpanded [it] areas !! 0%nat = Some newItem /\
    forall key, key ∈ map AreaChart.dataKey areas ->
      exists b : Q,
        newItem !! key = Some (VNum (Fin b)) /\ (0 <= b <= 100)%Q.
Proof.
  intros it areas.
  assert (Ht : AreaChart.rowTotal AreaChart.digitsToNumber
                 (map AreaChart.dataKey areas) it = Fin 4).
  { vm_compute. reflexivity. }
  assert (Hnn : forall key, key ∈ map AreaChart.dataKey areas ->
            (nZ 0 <=? AreaChart.numericValue AreaChart.digitsToNumber it key)%num
            = true).
  { intros key Hk. simpl in Hk.
    apply elem_of_cons in Hk as [->|Hk]; [vm_compute; reflexivity|].
    apply list_elem_of_singleton in Hk as ->. vm_compute. reflexivity. }
  split; [reflexivity|]. split; [exact Ht|]. split; [reflexivity|].
  split; [exact Hnn|].
  apply (normalizedData_percentage_range AreaChart.digitsToNumber [it] areas
           0 it 4); [reflexivity | exact Ht | reflexivity | exact Hnn].
Defined.



(** ** Termination on every input *)

Section Termination.

Local Open Scope Q_scope.

(** The step selected for a raw step that is a finite positive number. *)
Lemma getNiceStepSize_raw_pos (r t : num) (x : Q) :
  (r / t)%num = Fin x -> 0 < x ->
  exists q, getNiceStepSize r t = Fin q /\ 0 < q.
Proof.
  intros Hraw Hx. unfold getNiceStepSize. rewrite Hraw.
  rewrite Math_floor_log10_pos by exact Hx.
  rewrite Math_pow10_nZ.
  pose proof (pow10_pos (Qfloor_log10 x)) as Hm.
  set (m := 10 ^ Qfloor_log10 x) in *.
  rewrite num_div_Fin by lra.
  repeat match goal with
         | |- context [if ?b then _ else _] => destruct b
         end;
    eexists; (split; [reflexivity|]);
    change (inject_Z 1) with 1; change (inject_Z 2) with 2;
    change (inject_Z 5) with 5; change (inject_Z 10) with 10;
    clearbody m; nra.
Qed.

(** Every other raw step gives a degenerate step. *)
Lemma getNiceStepSize_classes (r t : num) :
  degenerateStep (getNiceStepSize r t) \/
  exists x q, (r / t)%num = Fin x /\ 0 < x /\
              getNiceStepSize r t = Fin q /\ 0 < q.
Proof.
  destruct (r / t)%num as [x| | |] eqn:Hraw.
  - destruct (Qcompare_spec x 0) as [H0|Hneg|Hpos].
    + left. right. right. unfold getNiceStepSize. rewrite Hraw.
      assert (Ec : (x ?= 0) = Eq) by (by apply Qeq_alt).
      unfold Math_floor_log10. rewrite Ec. unfold Math_pow10, num_div.
      change (Qeq_bool 0 0) with true. cbv iota. rewrite Ec.
      exists (inject_Z 10 * 0). split; [reflexivity | ring].
    + left. left. unfold getNiceStepSize. rewrite Hraw.
      assert (Ec : (x ?= 0) = Lt) by (by apply Qlt_alt).
      unfold Math_floor_log10. rewrite Ec. reflexivity.
    + right. destruct (getNiceStepSize_raw_pos r t x Hraw Hpos) as (q & E & Hq).
      by exists x, q.
  - left. right. left. unfold getNiceStepSize. rewrite Hraw. reflexivity.
  - left. left. unfold getNiceStepSize. rewrite Hraw. reflexivity.
  - left. left. unfold getNiceStepSize. rewrite Hraw. reflexivity.
Qed.

Lemma niceMin_degenerate (min s : num) :
  degenerateStep s -> (Math_floor (min / s) * s)%num = NaN.
Proof.
  intros [->|[->|(q & -> & Hq)]].
  - by destruct min.
  - by destruct min.
  - destruct min as [lo| | |]; [by apply niceMin_zero_step| | |reflexivity];
      apply Qeq_alt in Hq; unfold num_div;
      destruct (Qle_bool 0 q); unfold Math_floor, num_mul, inf_signed;
      rewrite Hq; reflexivity.
Qed.

Lemma num_div_Fin_inv (r t : num) (x : Q) :
  (r / t)%num = Fin x -> ~ x == 0 -> exists a b, r = Fin a /\ t = Fin b /\ ~ b == 0.
Proof.
  intros H Hx. destruct r as [a| | |], t as [b| | |]; try discriminate H.
  - exists a, b. split; [reflexivity|]. split; [reflexivity|].
    intros Hb. unfold num_div in H. apply Qeq_bool_iff in Hb. rewrite Hb in H.
    by destruct (a ?= 0).
  - unfold num_div in H. injection H as <-. by destruct Hx.
  - unfold num_div in H. injection H as <-. by destruct Hx.
  - unfold num_div in H. by destruct (Qle_bool 0 b).
  - unfold num_div in H. by destruct (Qle_bool 0 b).
Qed.

Lemma num_sub_Fin_inv (x y : num) (a : Q) :
  (x - y)%num = Fin a -> exists p q, x = Fin p /\ y = Fin q.
Proof.
  intros H. destruct x as [p| | |], y as [q| | |]; try discriminate H.
  by exists p, q.
Qed.

End Termination.



